(** * Spark Plug: the falling-block engine and the task score of
    [src/app/page.tsx], embedded in Rocq.

    Numbers of the source that are counts, indices or scores are integers
    ([Z], [nat] for lengths); the attributes and weights of the task score
    and the draws of [Math.random] are exact rationals ([Q]).  JavaScript
    arrays are lists; an array slot that was never written (a hole, read as
    [undefined]) is the cell [Hole].  A thrown [TypeError] is the outcome
    [TypeError] of the [result] type. *)

From Stdlib Require Import ZArith QArith Qminmax Qround Lia Lqa Bool.
From stdpp Require Import base list strings countable gmap sorting.

Local Open Scope Z_scope.

(** ** Outcomes: a value, or the TypeError JavaScript throws when a property
    of [undefined] is read or written. *)

Inductive result (A : Type) : Type :=
| Ok (a : A)
| TypeError.
Arguments Ok {A} a.
Arguments TypeError {A}.

#[global] Instance result_ret : MRet result := λ A a, Ok a.
#[global] Instance result_bind : MBind result := λ A B k m,
  match m with
  | Ok a => k a
  | TypeError => TypeError
  end.

(** ** Arrays *)

(** [a[i]] for an integer [i]: [None] stands for [undefined]. *)
Definition js_get {A} (a : list A) (i : Z) : option A :=
  if i <? 0 then None else a !! Z.to_nat i.

Inductive cell : Type :=
| Hole
| Num (n : Z).

Definition truthy (c : cell) : bool :=
  match c with
  | Hole => false
  | Num n => negb (n =? 0)
  end.

Abbreviation Board := (list (list cell)).
Abbreviation Matrix := (list (list Z)).

(** [m[0].length]; the source reads it only where [m] has a first row. *)
Definition width0 {A} (m : list (list A)) : nat :=
  match m with
  | [] => 0%nat
  | row :: _ => length row
  end.

(** [a[i] = v] on an array: inside the array the slot is overwritten, past its
    end the array grows and the slots in between are holes, and a negative
    index only adds a property, leaving the elements as they are. *)
Definition js_set (a : list cell) (i : Z) (v : cell) : list cell :=
  if i <? 0 then a
  else if i <? Z.of_nat (length a) then <[Z.to_nat i := v]> a
  else a ++ replicate (Z.to_nat i - length a) Hole ++ [v].

(** ** Geometry table *)

Module Kind.
Inductive Shape : Type := I | O | T | S | Z | J | L.
End Kind.
Abbreviation Shape := Kind.Shape.

Definition SHAPES : list Shape :=
  [Kind.I; Kind.O; Kind.T; Kind.S; Kind.Z; Kind.J; Kind.L].

Definition PIECE_MAP (s : Shape) : list Matrix :=
  match s with
  | Kind.I => [ [[1;1;1;1]]; [[1];[1];[1];[1]] ]
  | Kind.O => [ [[1;1];[1;1]] ]
  | Kind.T => [ [[1;1;1];[0;1;0]]; [[1;0];[1;1];[1;0]];
                [[0;1;0];[1;1;1]]; [[0;1];[1;1];[0;1]] ]
  | Kind.S => [ [[0;1;1];[1;1;0]]; [[1;0];[1;1];[0;1]] ]
  | Kind.Z => [ [[1;1;0];[0;1;1]]; [[0;1];[1;1];[1;0]] ]
  | Kind.J => [ [[1;0;0];[1;1;1]]; [[1;1];[1;0];[1;0]];
                [[1;1;1];[0;0;1]]; [[0;1];[0;1];[1;1]] ]
  | Kind.L => [ [[0;0;1];[1;1;1]]; [[1;0];[1;0];[1;1]];
                [[1;1;1];[1;0;0]]; [[1;1];[0;1];[0;1]] ]
  end.

(** ** Board engine *)

Definition createBoard (h w : nat) : Board :=
  replicate h (replicate w (Num 0)).

(** [shape[r][c]] used as a condition: [undefined] is falsy. *)
Definition occupied (shape : Matrix) (r c : nat) : bool :=
  match shape !! r ≫= (.!! c) with
  | Some v => negb (v =? 0)
  | None => false
  end.

(** [board[ny][nx]] used as a condition, read once [ny] is a row index. *)
Definition cellTruthy (board : Board) (ny nx : Z) : bool :=
  match js_get board ny ≫= (λ row, js_get row nx) with
  | Some c => truthy c
  | None => false
  end.

(** The guard of [canPlace]:
    [ny<0||ny>=board.length||nx<0||nx>=board[0].length||board[ny][nx]]. *)
Definition blocked (board : Board) (nx ny : Z) : bool :=
  (ny <? 0) || (ny >=? Z.of_nat (length board)) ||
  (nx <? 0) || (nx >=? Z.of_nat (width0 board)) ||
  cellTruthy board ny nx.

(** The index pairs [(r, c)] visited by the two nested loops over a shape,
    in the order of the loops. *)
Definition loopCells (shape : Matrix) : list (nat * nat) :=
  r ← seq 0 (length shape); c ← seq 0 (width0 shape); [(r, c)].

Definition canPlace (board : Board) (shape : Matrix) (x y : Z) : bool :=
  forallb (λ rc : nat * nat,
             negb (occupied shape rc.1 rc.2 &&
                   blocked board (x + Z.of_nat rc.2) (y + Z.of_nat rc.1)))
          (loopCells shape).

(** [b[ny][nx] = 1]; a TypeError when [b[ny]] is [undefined]. *)
Definition setCell (b : Board) (ny nx : Z) : result Board :=
  match js_get b ny with
  | Some row => Ok (<[Z.to_nat ny := js_set row nx (Num 1)]> b)
  | None => TypeError
  end.

(** The loops of [merge] over the cells still to visit, on the copy [b]. *)
Fixpoint mergeCells (shape : Matrix) (x y : Z) (cells : list (nat * nat))
    (b : Board) : result Board :=
  match cells with
  | [] => Ok b
  | (r, c) :: rest =>
      if occupied shape r c
      then b' ← setCell b (y + Z.of_nat r) (x + Z.of_nat c);
           mergeCells shape x y rest b'
      else mergeCells shape x y rest b
  end.

(** [board.map(row=>row.slice())] is a fresh copy: the input is not changed
    and the copy starts equal to it. *)
Definition merge (board : Board) (shape : Matrix) (x y : Z) : result Board :=
  mergeCells shape x y (loopCells shape) board.

(** [v===0]. *)
Definition isZero (c : cell) : bool :=
  match c with
  | Num 0 => true
  | _ => false
  end.

(** [kept.unshift(empty)] repeated while [kept.length<board.length], that is
    [n = board.length - kept.length] times. *)
Fixpoint unshiftRows (n : nat) (empty : list cell) (kept : Board) : Board :=
  match n with
  | O => kept
  | S n' => unshiftRows n' empty (empty :: kept)
  end.

(** The result pair is the source's [{ board, lines }]. *)
Definition clearLines (board : Board) : Board * nat :=
  let kept := List.filter (existsb isZero) board in
  let cleared := (length board - length kept)%nat in
  (unshiftRows (length board - length kept)
               (replicate (width0 board) (Num 0)) kept,
   cleared).

(** ** Game state and the operations of the play component *)

Module Piece.
Record t : Type := mk { shape : Shape; x : Z; y : Z; r : Z }.
End Piece.

Record GameState : Type := mkState {
  board : Board;
  piece : option Piece.t;
  over : bool;
  score : Z
}.

(** [PIECE_MAP[shape][r]]: [None] is [undefined]. *)
Definition shapeAt (k : Shape) (r : Z) : option Matrix :=
  js_get (PIECE_MAP k) r.

(** [{ ...s, piece: p }]. *)
Definition withPiece (s : GameState) (p : option Piece.t) : GameState :=
  mkState (board s) p (over s) (score s).

(** The updater of [step].  With [PIECE_MAP[..][r]] undefined, [canPlace]
    throws on [shape.length]. *)
Definition step (s : GameState) : result GameState :=
  if over s then Ok s
  else match piece s with
  | None => Ok s
  | Some p =>
      match shapeAt (Piece.shape p) (Piece.r p) with
      | None => TypeError
      | Some shape =>
          let ny := Piece.y p + 1 in
          if canPlace (board s) shape (Piece.x p) ny
          then Ok (withPiece s
                     (Some (Piece.mk (Piece.shape p) (Piece.x p) ny (Piece.r p))))
          else
            merged ← merge (board s) shape (Piece.x p) (Piece.y p);
            let '(board', lines) := clearLines merged in
            Ok (mkState board' None (over s) (score s + Z.of_nat lines * 100))
      end
  end.

Definition move (dx : Z) (s : GameState) : result GameState :=
  match piece s with
  | None => Ok s
  | Some p =>
      match shapeAt (Piece.shape p) (Piece.r p) with
      | None => TypeError
      | Some shape =>
          let nx := Piece.x p + dx in
          if canPlace (board s) shape nx (Piece.y p)
          then Ok (withPiece s
                     (Some (Piece.mk (Piece.shape p) nx (Piece.y p) (Piece.r p))))
          else Ok s
      end
  end.

(** [%] is JavaScript's remainder, with the sign of the dividend. *)
Definition rotate (s : GameState) : result GameState :=
  match piece s with
  | None => Ok s
  | Some p =>
      let nr := Z.rem (Piece.r p + 1)
                      (Z.of_nat (length (PIECE_MAP (Piece.shape p)))) in
      match shapeAt (Piece.shape p) nr with
      | None => TypeError
      | Some shape =>
          if canPlace (board s) shape (Piece.x p) (Piece.y p)
          then Ok (withPiece s
                     (Some (Piece.mk (Piece.shape p) (Piece.x p) (Piece.y p) nr)))
          else Ok s
      end
  end.

(** [while(canPlace(board, shape, x, y+1)) y++], run for at most [fuel]
    tests of the condition; [None] when the fuel does not reach the exit. *)
Fixpoint dropLoop (fuel : nat) (b : Board) (shape : Matrix) (x y : Z)
    : option Z :=
  match fuel with
  | O => None
  | S fuel' =>
      if canPlace b shape x (y + 1)
      then dropLoop fuel' b shape x (y + 1)
      else Some y
  end.

(** The first updater of [hardDrop]. *)
Definition drop (fuel : nat) (s : GameState) : option (result GameState) :=
  match piece s with
  | None => Some (Ok s)
  | Some p =>
      match shapeAt (Piece.shape p) (Piece.r p) with
      | None => Some TypeError
      | Some shape =>
          y ← dropLoop fuel (board s) shape (Piece.x p) (Piece.y p);
          Some (Ok (withPiece s
                      (Some (Piece.mk (Piece.shape p) (Piece.x p) y (Piece.r p)))))
      end
  end.

(** [hardDrop] queues its own updater and then the updater of [step]. *)
Definition hardDrop (fuel : nat) (s : GameState) : option (result GameState) :=
  s' ← drop fuel s; Some (s' ≫= step).

(** *** Drawing *)

Definition SHAPE_COLOR (s : Shape) : string :=
  match s with
  | Kind.I => "#17E9E0" | Kind.O => "#FCCD04" | Kind.T => "#A64AC9"
  | Kind.S => "#8DE36F" | Kind.Z => "#FF6B6B" | Kind.J => "#4DA3FF"
  | Kind.L => "#FFB48F"
  end.

Definition palette : list string :=
  ["#A64AC9"; "#FCCD04"; "#FFB48F"; "#F5E6CC"; "#17E9E0"].

(** One [ctx.fillRect(gx*cw, gy*ch, cw-1, ch-1)] under [fillStyle = colour],
    kept in grid coordinates. *)
Record Fill : Type := mkFill { colour : string; gx : Z; gy : Z }.

(** The grid positions [(r, c)] of two nested loops, [r] outermost. *)
Definition gridCells (rows cols : nat) : list (nat * nat) :=
  r ← seq 0 rows; c ← seq 0 cols; [(r, c)].

(** The fills [draw] issues, in order.  [state.board[0].length] throws on a
    board without rows, [shape.length] on an undefined shape. *)
Definition draw (state : GameState) : result (list Fill) :=
  match board state with
  | [] => TypeError
  | row0 :: _ =>
      let cols := length row0 in
      let rows := length (board state) in
      let boardFills :=
        rc ← gridCells rows cols;
        if cellTruthy (board state) (Z.of_nat rc.1) (Z.of_nat rc.2)
        then [mkFill (default "" (palette !! ((rc.1 * 13 + rc.2 * 7) `mod` length palette)%nat))
                     (Z.of_nat rc.2) (Z.of_nat rc.1)]
        else [] in
      match piece state with
      | None => Ok boardFills
      | Some p =>
          match shapeAt (Piece.shape p) (Piece.r p) with
          | None => TypeError
          | Some shape =>
              Ok (boardFills ++
                  (rc ← loopCells shape;
                   if occupied shape rc.1 rc.2
                   then [mkFill (SHAPE_COLOR (Piece.shape p))
                                (Piece.x p + Z.of_nat rc.2)
                                (Piece.y p + Z.of_nat rc.1)]
                   else []))
          end
      end
  end.

(** ** Randomness

    [Math.random()] is a draw from a sequence [rnd] of rationals; the position
    of the next draw is threaded through the code that draws. *)

(** [Math.floor(u * n)]. *)
Definition floorTimes (u : Q) (n : nat) : Z :=
  Qfloor (u * inject_Z (Z.of_nat n)).

(** The contract of [Math.random]: a value in [0, 1). *)
Definition unitDraw (u : Q) : Prop := (0 <= u)%Q ∧ (u < 1)%Q.

(** ** Garbage rows *)

(** [v===1] under [every], which skips holes. *)
Definition isOne (c : cell) : bool :=
  match c with
  | Hole => true
  | Num n => n =? 1
  end.

Section Garbage.
Variable rnd : nat → Q.

(** [for(x...) b[y][x] = x===gap ? 0 : (Math.random()<0.9?1:0)] over the
    columns [xs] still to write; [k] is the position of the next draw. *)
Fixpoint fillRow (xs : list nat) (gap : Z) (cells : list cell) (k : nat)
    : list cell * nat :=
  match xs with
  | [] => (cells, k)
  | x :: xs' =>
      if Z.of_nat x =? gap
      then fillRow xs' gap (js_set cells (Z.of_nat x) (Num 0)) k
      else fillRow xs' gap
             (js_set cells (Z.of_nat x)
                (if Qlt_le_dec (rnd k) (9 # 10) then Num 1 else Num 0))
             (S k)
  end.

(** One turn of the outer loop; every use of [b[y]] throws when row [y] does
    not exist. *)
Definition garbageRow (h w i : nat) (bk : Board * nat)
    : result (Board * nat) :=
  let y := Z.of_nat h - 1 - Z.of_nat i in
  let gap := floorTimes (rnd bk.2) w in
  match js_get bk.1 y with
  | None => TypeError
  | Some cells =>
      let filled := fillRow (seq 0 w) gap cells (S bk.2) in
      if forallb isOne filled.1
      then Ok (<[Z.to_nat y :=
                   js_set filled.1 (floorTimes (rnd filled.2) w) (Num 0)]> bk.1,
               S filled.2)
      else Ok (<[Z.to_nat y := filled.1]> bk.1, filled.2)
  end.

Fixpoint garbageRows (h w : nat) (turns : list nat) (bk : Board * nat)
    : result (Board * nat) :=
  match turns with
  | [] => Ok bk
  | i :: rest => bk' ← garbageRow h w i bk; garbageRows h w rest bk'
  end.

(** The board, and the position of the next draw. *)
Definition generateGarbage (h w rows : nat) (k : nat) : result (Board * nat) :=
  garbageRows h w (seq 0 rows) (createBoard h w, k).
End Garbage.

(** ** Inventory and spawning *)

#[global] Instance Shape_eq_dec : EqDecision Shape.
Proof. solve_decision. Defined.

#[global] Instance Shape_countable : Countable Shape.
Proof.
  refine (inj_countable'
            (λ s, match s with
                  | Kind.I => 0 | Kind.O => 1 | Kind.T => 2 | Kind.S => 3
                  | Kind.Z => 4 | Kind.J => 5 | Kind.L => 6
                  end%nat)
            (λ n, match n with
                  | 0 => Kind.I | 1 => Kind.O | 2 => Kind.T | 3 => Kind.S
                  | 4 => Kind.Z | 5 => Kind.J | _ => Kind.L
                  end%nat) _).
  by intros [].
Defined.

Abbreviation Inventory := (gmap Shape Z).

(** [inv[s]||0]: a missing key counts as 0. *)
Definition count (inv : Inventory) (s : Shape) : Z := default 0 (inv !! s).

(** What [spawnFromInventory] returns, with the argument of its call of
    [setInv] when it makes one. *)
Record Spawned : Type := mkSpawned {
  spawned : option Piece.t;
  consumed : option Shape;
  setInv : option Inventory
}.

(** [SHAPES.filter(s=> (inv[s]||0)>0)]. *)
Definition available (inv : Inventory) : list Shape :=
  List.filter (λ s, 0 <? count inv s) SHAPES.

(** [u] is the draw of [Math.random()].  Were the index outside [available],
    [PIECE_MAP[undefined][0]] would throw. *)
Definition spawnFromInventory (inv : Inventory) (u : Q) : result Spawned :=
  if (length (available inv) =? 0)%nat then Ok (mkSpawned None None None)
  else
    let idx := floorTimes u (length (available inv)) in
    match js_get (available inv) idx with
    | None => TypeError
    | Some shape =>
        let next := <[shape := Z.max 0 (count inv shape - 1)]> inv in
        match shapeAt shape 0 with
        | None => TypeError
        | Some matrix =>
            let x := (10 - Z.of_nat (width0 matrix)) `div` 2 in
            Ok (mkSpawned (Some (Piece.mk shape x 0 0)) (Some shape) (Some next))
        end
    end.

(** The state of the play component that the engine reads and writes. *)
Record Play : Type := mkPlay {
  state : GameState;
  inventory : Inventory;
  running : bool;
  lastConsumed : option Shape;
  prefill : Z
}.

Definition ensurePiece (u : Q) (c : Play) : result Play :=
  match piece (state c) with
  | Some _ => Ok c
  | None =>
      sp ← spawnFromInventory (inventory c) u;
      match spawned sp with
      | Some p =>
          Ok (mkPlay (withPiece (state c) (Some p))
                     (default (inventory c) (setInv sp))
                     (running c) (consumed sp) (prefill c))
      | None =>
          Ok (mkPlay (state c) (inventory c) false (lastConsumed c) (prefill c))
      end
  end.

(** [reset]: a fresh board with [Math.max(0,Math.min(10,prefill))] garbage rows. *)
Definition reset (rnd : nat → Q) (c : Play) : result Play :=
  bk ← generateGarbage rnd 20 10 (Z.to_nat (Z.max 0 (Z.min 10 (prefill c)))) 0;
  Ok (mkPlay (mkState bk.1 None false 0) (inventory c) false
             (lastConsumed c) (prefill c)).

(** ** Task score *)

Module Task.
(** The attributes the score reads; the other fields of a task (id, title,
    notes, tags, done, createdAt) do not enter it. *)
Record t : Type := mk {
  impact : Q; urgency : Q; energyFit : Q; complexity : Q; effort : Q
}.
End Task.

Module Weights.
Record t : Type := mk {
  impact : Q; urgency : Q; energyFit : Q; complexity : Q
}.
End Weights.

Definition clamp01 (x : Q) : Q := Qmax 0 (Qmin 1 x).

Definition defaultWeights : Weights.t :=
  Weights.mk (4 # 10) (3 # 10) (2 # 10) (1 # 10).

Definition taskScore (t : Task.t) (w : Weights.t) : Q :=
  let imp := clamp01 (Task.impact t / 5) in
  let urg := clamp01 (Task.urgency t / 5) in
  let fit := clamp01 (Task.energyFit t / 5) in
  let cpx := clamp01 (Task.complexity t / 5) in
  let effortPenalty := (clamp01 ((Task.effort t - 1) / 7) * (1 # 10))%Q in
  Qmax 0 (Weights.impact w * imp + Weights.urgency w * urg
          + Weights.energyFit w * fit - Weights.complexity w * cpx
          - effortPenalty)%Q.

(** ** Dials *)

(** What the minus and plus buttons of a [Dial] pass to [onChange]. *)
Definition dialMinus (min value : Q) : Q := Qmax min (value - 1).

Definition dialPlus (max value : Q) : Q := Qmin max (value + 1).

(** ** Ranking the tasks *)

Module Item.
(** A task with all its fields; [attrs] holds the five rated attributes. *)
Record t : Type := mk {
  id : string;
  title : string;
  notes : option string;
  attrs : Task.t;
  tags : list string;
  done : bool;
  createdAt : Z
}.
End Item.

(** [{ t, score }]. *)
Abbreviation Scored := (Item.t * Q)%type.

(** [sort((a, b) => b.score - a.score)]: [Array.prototype.sort] is stable and
    the comparator orders by descending score, so the sorted array is the one
    obtained by inserting the elements, last first, each in front of the first
    element whose score is not greater. *)
Fixpoint insertScored (x : Scored) (l : list Scored) : list Scored :=
  match l with
  | [] => [x]
  | y :: l' => if Qle_bool y.2 x.2 then x :: y :: l' else y :: insertScored x l'
  end.

Definition sortByScoreDesc (l : list Scored) : list Scored :=
  foldr insertScored [] l.

(** [tasks.filter((t) => !t.done).map((t) => ({ t, score: taskScore(t, weights) }))]. *)
Definition scoredUndone (tasks : list Item.t) (weights : Weights.t) : list Scored :=
  (λ t, (t, taskScore (Item.attrs t) weights))
    <$> List.filter (λ t, negb (Item.done t)) tasks.

(** The ranking at the exact scores. *)
Definition ranked (tasks : list Item.t) (weights : Weights.t) : list Scored :=
  sortByScoreDesc (scoredUndone tasks weights).

(** The ranking read off the scores alone.  [sort] sees a score only through
    the sign of [b.score - a.score], and the program computes [taskScore] in
    double-precision floating point, whose values are rationals that can
    differ from the exact ones in the last place, so that two tasks that tie
    exactly need not tie there.  [scoreOf t] stands for the number that
    [taskScore(t, weights)] evaluates to; for two such numbers the sign of the
    difference is the sign of their comparison. *)
Definition scoredUndoneBy (scoreOf : Item.t → Q) (tasks : list Item.t)
    : list Scored :=
  (λ t, (t, scoreOf t)) <$> List.filter (λ t, negb (Item.done t)) tasks.

Definition rankedBy (scoreOf : Item.t → Q) (tasks : list Item.t) : list Scored :=
  sortByScoreDesc (scoredUndoneBy scoreOf tasks).

(** [ranked[0]?.t.id]. *)
Definition bestNextTaskIdBy (scoreOf : Item.t → Q) (tasks : list Item.t)
    : option string :=
  (λ e : Scored, Item.id e.1) <$> head (rankedBy scoreOf tasks).

(** [tasks.filter((x) => x.id !== id)]. *)
Definition removeTask (id : string) (tasks : list Item.t) : list Item.t :=
  List.filter (λ x, negb (String.eqb (Item.id x) id)) tasks.

(** ** Granting pieces *)

(** [Math.floor(u * m)] for an integer [m]. *)
Definition floorTimesZ (u : Q) (m : Z) : Z := Qfloor (u * inject_Z m).

Section Award.
Variable rnd : nat → Q.

(** The loop of [awardRandomTetrisPieces] with [turns] turns to go: [next] is
    the copy of the inventory, [gained] the kinds pushed so far, [k] the
    position of the next draw.  Were the index outside [SHAPES], the kind would
    be [undefined] ([None]): it is pushed, and the count goes to a key that no
    kind reads. *)
Fixpoint awardLoop (turns : nat) (next : Inventory) (gained : list (option Shape))
    (k : nat) : Inventory * list (option Shape) * nat :=
  match turns with
  | O => (next, gained, k)
  | S turns' =>
      let s := js_get SHAPES (floorTimes (rnd k) (length SHAPES)) in
      awardLoop turns'
        (match s with
         | Some kind => <[kind := count next kind + 1]> next
         | None => next
         end)
        (gained ++ [s]) (S k)
  end.

(** The arguments of [setInventory] and [setLastAward], and the position of
    the next draw.  A count [n] that is not positive gives no turn. *)
Definition awardRandomTetrisPieces (inventory : Inventory) (nMin nMax : Z)
    (k : nat) : Inventory * list (option Shape) * nat :=
  let n := floorTimesZ (rnd k) (nMax - nMin + 1) + nMin in
  awardLoop (Z.to_nat n) inventory [] (S k).
End Award.

(** ** Rewards of a completed focus phase *)

Record Rewards : Type := mkRewards { coins : Z; streak : Z; lastDay : string }.

(** The updater that [awardFocusCompletion] passes to [setRewards]; [today] is
    the date part of [new Date().toISOString()].  Strings compare as
    JavaScript compares them, character by character; an empty [lastDay] is
    falsy. *)
Definition awardFocus (today : string) (r : Rewards) : Rewards :=
  let newStreak :=
    if String.eqb (lastDay r) today then streak r
    else if negb (String.eqb (lastDay r) "") && String.ltb (lastDay r) today
         then streak r + 1
         else 1 in
  mkRewards (coins r + 10) newStreak today.

(** * Specification-side notions

    The predicates and reference functions in which the properties below are
    stated. *)

(** All rows of a grid have the width of its first row. *)
Definition rectangular {A} (m : list (list A)) : Prop :=
  Forall (λ row, length row = width0 m) m.

(** The board has a cell at row [i], column [j], and it is not occupied. *)
Definition free_at (board : Board) (i j : Z) : Prop :=
  ∃ row c, js_get board i = Some row ∧ js_get row j = Some c ∧ truthy c = false.

(** Every cell of the row is occupied. *)
Definition fullRow (row : list cell) : bool := forallb truthy row.

Definition binaryRow (row : list cell) : Prop :=
  Forall (λ c, c = Num 0 ∨ c = Num 1) row.

(** The score as the specification words it: attributes divided by their
    maximum 5 and cut to [0, 1], an effort penalty of at most 0.1, the weighted
    sum floored at 0. *)
Definition cut01 (x : Q) : Q :=
  if Qlt_le_dec x 0 then 0%Q else if Qlt_le_dec 1 x then 1%Q else x.

Definition norm (v : Q) : Q := cut01 (v / 5).

Definition effortPenaltySpec (effort : Q) : Q :=
  ((1 # 10) * cut01 ((effort - 1) / 7))%Q.

Definition floor0 (x : Q) : Q := if Qlt_le_dec x 0 then 0%Q else x.

Definition scoreSpec (t : Task.t) (w : Weights.t) : Q :=
  floor0 (Weights.impact w * norm (Task.impact t)
          + Weights.urgency w * norm (Task.urgency t)
          + Weights.energyFit w * norm (Task.energyFit t)
          - Weights.complexity w * norm (Task.complexity t)
          - effortPenaltySpec (Task.effort t))%Q.

(** Row lengths of a board, top to bottom. *)
Definition dims (b : Board) : list nat := length <$> b.

(** [b[i][j]], [None] where the board has no such cell. *)
Definition readCell (b : Board) (i j : Z) : option cell :=
  js_get b i ≫= λ cells, js_get cells j.

Definition inBoard (b : Board) (ny nx : Z) : bool :=
  match js_get b ny with
  | Some cells => (0 <=? nx) && (nx <? Z.of_nat (length cells))
  | None => false
  end.

(** Every occupied cell of the shape, moved by [(x, y)], is a cell of the
    board (occupied or not). *)
Definition inside (b : Board) (shape : Matrix) (x y : Z) : bool :=
  forallb (λ rc : nat * nat,
             implb (occupied shape rc.1 rc.2)
                   (inBoard b (y + Z.of_nat rc.1) (x + Z.of_nat rc.2)))
          (loopCells shape).

(** Cell [(i, j)] of the board is under an occupied cell of the shape placed at
    [(x, y)]. *)
Definition covered (shape : Matrix) (x y i j : Z) : Prop :=
  ∃ r c : nat, occupied shape r c = true ∧
               i = y + Z.of_nat r ∧ j = x + Z.of_nat c.

(** [m] is [b] with the cells under the shape set to 1 and nothing else
    changed. *)
Definition mergedAt (b : Board) (shape : Matrix) (x y : Z) (m : Board) : Prop :=
  dims m = dims b ∧
  ∀ i j, (covered shape x y i j ∧ readCell m i j = Some (Num 1)) ∨
         (¬ covered shape x y i j ∧ readCell m i j = readCell b i j).

(** The cells of [cells] that are occupied, as places on the board. *)
Definition coveredBy (shape : Matrix) (x y : Z) (cells : list (nat * nat))
    (i j : Z) : Prop :=
  ∃ r c : nat, (r, c) ∈ cells ∧ occupied shape r c = true ∧
               i = y + Z.of_nat r ∧ j = x + Z.of_nat c.

(** Rotation states are rectangular matrices with an occupied cell. *)
Definition soundMatrix (shape : Matrix) : bool :=
  forallb (λ cells, (length cells =? width0 shape)%nat) shape &&
  existsb (λ rc : nat * nat, occupied shape rc.1 rc.2) (loopCells shape).

(** The active piece has a rotation state and its cells lie on the board. *)
Definition pieceOnBoard (s : GameState) : bool :=
  match piece s with
  | None => true
  | Some p =>
      match shapeAt (Piece.shape p) (Piece.r p) with
      | None => false
      | Some shape => inside (board s) shape (Piece.x p) (Piece.y p)
      end
  end.

(** [setState(s')]. *)
Definition setState (c : Play) (s' : GameState) : Play :=
  mkPlay s' (inventory c) (running c) (lastConsumed c) (prefill c).

(** The states the play component can be in: it mounts with two garbage rows,
    no piece, flag unset and score 0, over whatever inventory it is handed,
    and then runs its effects, ticks and button handlers in any order. *)
Inductive reachable : Play → Prop :=
| reach_mount (rnd : nat → Q) (inv : Inventory) (bk : Board * nat) :
    (∀ n, unitDraw (rnd n)) →
    generateGarbage rnd 20 10 2 0 = Ok bk →
    reachable (mkPlay (mkState bk.1 None false 0) inv false None 2)
| reach_ensurePiece (c c' : Play) (u : Q) :
    reachable c → unitDraw u → ensurePiece u c = Ok c' → reachable c'
| reach_step (c : Play) (s' : GameState) :
    reachable c → step (state c) = Ok s' → reachable (setState c s')
| reach_move (c : Play) (dx : Z) (s' : GameState) :
    reachable c → move dx (state c) = Ok s' → reachable (setState c s')
| reach_rotate (c : Play) (s' : GameState) :
    reachable c → rotate (state c) = Ok s' → reachable (setState c s')
| reach_hardDrop (c : Play) (fuel : nat) (s' : GameState) :
    reachable c → hardDrop fuel (state c) = Some (Ok s') →
    reachable (setState c s')
| reach_reset (c c' : Play) (rnd : nat → Q) :
    reachable c → (∀ n, unitDraw (rnd n)) → reset rnd c = Ok c' → reachable c'
| reach_setRunning (c : Play) (on : bool) :
    reachable c →
    reachable (mkPlay (state c) (inventory c) on (lastConsumed c) (prefill c))
| reach_prefillDown (c : Play) :
    reachable c →
    reachable (mkPlay (state c) (inventory c) (running c) (lastConsumed c)
                      (Z.max 0 (prefill c - 1)))
| reach_prefillUp (c : Play) :
    reachable c →
    reachable (mkPlay (state c) (inventory c) (running c) (lastConsumed c)
                      (Z.min 10 (prefill c + 1)))
| reach_inventory (c : Play) (inv : Inventory) :
    reachable c →
    reachable (mkPlay (state c) inv (running c) (lastConsumed c) (prefill c)).

(** The board [generateGarbage] builds when every draw is 0. *)
Definition garbageOfZeroDraws : Board :=
  replicate 18 (replicate 10 (Num 0))
  ++ replicate 2 (Num 0 :: replicate 9 (Num 1)).

(** The component as mounted over an empty inventory. *)
Definition starvedPlay : Play :=
  mkPlay (mkState garbageOfZeroDraws None false 0) ∅ false None 2.

(** What holds of the board after [n] turns of the outer loop of
    [generateGarbage]. *)
Definition garbageInv (h w n : nat) (b : Board) : Prop :=
  length b = h ∧ Forall (λ cells, length cells = w) b ∧
  (∀ j, (j < h - n)%nat → b !! j = Some (replicate w (Num 0))) ∧
  (∀ j, (h - n ≤ j < h)%nat → ∃ cells, b !! j = Some cells ∧ Num 0 ∈ cells).

(** ** Sample states *)

(** An empty 20x10 board between two pieces. *)
Definition idleState : GameState := mkState (createBoard 20 10) None false 300.

(** The I piece lying against the left wall of an empty board. *)
Definition barAtLeftWall : GameState :=
  mkState (createBoard 20 10) (Some (Piece.mk Kind.I 0 5 0)) false 0.

(** The O piece, which has one rotation state, stored with rotation index 1. *)
Definition squareAtIndex1 : GameState :=
  mkState (createBoard 20 10) (Some (Piece.mk Kind.O 4 0 1)) false 0.

(** A state with the terminal flag set and a piece that has room to fall. *)
Definition overWithPiece : GameState :=
  mkState (createBoard 4 4) (Some (Piece.mk Kind.O 1 0 0)) true 0.

(** ** Invariants of the play component *)

(** The board is a grid of [n] rows of [w] cells. *)
Definition grid (n w : nat) (b : Board) : Prop :=
  length b = n ∧ Forall (λ cells, length cells = w) b.

(** The board is the 20x10 grid and the active piece, if any, has a rotation
    state and lies on it. *)
Definition boardInv (c : Play) : Prop :=
  grid 20 10 (board (state c)) ∧ pieceOnBoard (state c) = true.

(** ** Ranking *)

(** [a] does not score less than [b]. *)
Definition scoresAtLeast (a b : Scored) : Prop := (b.2 <= a.2)%Q.

(** ** Grants *)

(** How often kind [s] occurs among the kinds gained. *)
Definition gainedOf (s : Shape) (gained : list (option Shape)) : Z :=
  Z.of_nat (length (List.filter (λ g, bool_decide (g = Some s)) gained)).

(** ** Rewards *)

(** The rewards after focus phases completed on the days [days], in order. *)
Definition afterFocusDays (r : Rewards) (days : list string) : Rewards :=
  foldl (λ r' today, awardFocus today r') r days.

(** Day [a] is not after day [b], as strings. *)
Definition notAfter (a b : string) : Prop := String.leb a b = true.

(** ** Ticks in a row *)

(** [n] ticks one after the other. *)
Fixpoint stepTimes (n : nat) (s : GameState) : result GameState :=
  match n with
  | O => Ok s
  | S n' => step s ≫= stepTimes n'
  end.

(** ** Sample states of the play component with a piece *)

(** The inventory holding one I piece, and what is left of it after the
    spawn. *)
Definition oneBar : Inventory := {[ Kind.I := 1 ]}.

Definition oneBarSpent : Inventory := <[ Kind.I := 0 ]> oneBar.

(** The component as mounted over [oneBar], every draw being 0. *)
Definition stockedPlay : Play :=
  mkPlay (mkState garbageOfZeroDraws None false 0) oneBar false None 2.

(** The component once the I piece is spawned, with the piece at column [x],
    row [y] and rotation index [r]. *)
Definition barPlay (x y r : Z) : Play :=
  mkPlay (mkState garbageOfZeroDraws (Some (Piece.mk Kind.I x y r)) false 0)
         oneBarSpent false (Some Kind.I) 2.

(** The I piece as spawned. *)
Definition spawnedPlay : Play := barPlay 3 0 0.

(** The I piece upright in the free column 0, resting on the floor: the next
    tick lands it and completes the two garbage rows. *)
Definition landingPlay : Play := barPlay 0 16 1.

(** The state after that landing. *)
Definition landedState : GameState :=
  mkState (replicate 18 (replicate 10 (Num 0))
           ++ replicate 2 (Num 1 :: replicate 9 (Num 0)))
          None false 200.

(** * Properties *)

(** ** Placement: what [canPlace] decides *)

Lemma js_get_Some {A} (a : list A) (i : Z) (v : A) :
  js_get a i = Some v ↔ 0 ≤ i ∧ a !! Z.to_nat i = Some v.
Proof.
  unfold js_get. destruct (Z.ltb_spec i 0).
  - split; [done|intros [? _]; lia].
  - split; [intros ?; split; [lia|done]|by intros [_ ?]].
Qed.

Lemma js_get_of_nat {A} (a : list A) (n : nat) : js_get a (Z.of_nat n) = a !! n.
Proof.
  unfold js_get. destruct (Z.ltb_spec (Z.of_nat n) 0); [lia|].
  by rewrite Nat2Z.id.
Qed.

Lemma js_get_lt {A} (a : list A) (i : Z) :
  0 ≤ i < Z.of_nat (length a) → is_Some (js_get a i).
Proof.
  intros Hi. unfold js_get. destruct (Z.ltb_spec i 0); [lia|].
  apply lookup_lt_is_Some. lia.
Qed.

Lemma elem_of_loopCells (shape : Matrix) (r c : nat) :
  (r, c) ∈ loopCells shape ↔ (r < length shape)%nat ∧ (c < width0 shape)%nat.
Proof.
  unfold loopCells. rewrite list_elem_of_bind. split.
  - intros (r' & Hin & Hr'). apply list_elem_of_bind in Hin as (c' & Hin & Hc').
    apply list_elem_of_singleton in Hin. simplify_eq.
    apply elem_of_seq in Hr', Hc'. lia.
  - intros [Hr Hc]. exists r. split; [|apply elem_of_seq; lia].
    apply list_elem_of_bind. exists c. split; [set_solver|apply elem_of_seq; lia].
Qed.

Lemma canPlace_true (board : Board) (shape : Matrix) (x y : Z) :
  canPlace board shape x y = true ↔
  ∀ r c, (r < length shape)%nat → (c < width0 shape)%nat →
         occupied shape r c = true →
         blocked board (x + Z.of_nat c) (y + Z.of_nat r) = false.
Proof.
  unfold canPlace. rewrite forallb_forall. split.
  - intros H r c Hr Hc Hocc.
    specialize (H (r, c)). simpl in H. rewrite Hocc in H. simpl in H.
    apply negb_true_iff, H, list_elem_of_In, elem_of_loopCells. done.
  - intros H [r c] Hin. simpl.
    apply list_elem_of_In, elem_of_loopCells in Hin as [Hr Hc].
    destruct (occupied shape r c) eqn:Hocc; [|done].
    simpl. by rewrite H.
Qed.

Lemma occupied_true (shape : Matrix) (r c : nat) :
  occupied shape r c = true ↔
  ∃ v, shape !! r ≫= (.!! c) = Some v ∧ v ≠ 0.
Proof.
  unfold occupied. destruct (shape !! r ≫= (.!! c)) as [v|]; split.
  - intros H. exists v. split; [done|]. apply negb_true_iff in H. lia.
  - intros (v' & [= <-] & Hv). apply negb_true_iff. lia.
  - done.
  - by intros (v' & ? & _).
Qed.

Lemma blocked_false (board : Board) (nx ny : Z) :
  rectangular board →
  blocked board nx ny = false ↔ free_at board ny nx.
Proof.
  intros Hrect. unfold rectangular in Hrect. rewrite Forall_forall in Hrect.
  unfold blocked, free_at, cellTruthy. split.
  - intros H. repeat (apply orb_false_iff in H as [H ?]).
    destruct (js_get_lt board ny) as [row Hrow]; [lia|].
    assert (length row = width0 board) as Hlen.
    { apply Hrect. apply js_get_Some in Hrow as [_ Hrow].
      by eapply list_elem_of_lookup_2. }
    destruct (js_get_lt row nx) as [c Hc]; [lia|].
    exists row, c. rewrite Hrow in *. simpl in *. rewrite Hc in *. done.
  - intros (row & c & Hrow & Hc & Hfree).
    rewrite Hrow. simpl. rewrite Hc, Hfree.
    apply js_get_Some in Hrow as [Hny Hrow], Hc as [Hnx Hc].
    assert (length row = width0 board) as Hlen.
    { apply Hrect. by eapply list_elem_of_lookup_2. }
    apply lookup_lt_Some in Hrow, Hc.
    repeat (apply orb_false_iff; split); try done; lia.
Qed.

(** C7. On a rectangular board and a rectangular shape matrix, [canPlace]
    answers true exactly when every occupied cell of the shape, moved by
    [(x, y)], falls on a cell of the board that exists and is unoccupied; on the
    empty 4x4 board the 2x2 square fits at (1,1) and does not fit at (3,3). *)
Theorem canPlace_iff_every_cell_free (board : Board) (shape : Matrix) (x y : Z) :
  rectangular board → rectangular shape →
  (canPlace board shape x y = true ↔
   ∀ (r c : nat) (v : Z),
     shape !! r ≫= (.!! c) = Some v → v ≠ 0 →
     free_at board (y + Z.of_nat r) (x + Z.of_nat c)) ∧
  canPlace (createBoard 4 4) [[1;1];[1;1]] 1 1 = true ∧
  canPlace (createBoard 4 4) [[1;1];[1;1]] 3 3 = false.
Proof.
  intros Hb Hs. split; [|done].
  unfold rectangular in Hs. rewrite Forall_forall in Hs.
  rewrite canPlace_true. split.
  - intros H r c v Hv Hne.
    destruct (shape !! r) as [row|] eqn:Hrow; [|done]. simpl in Hv.
    apply blocked_false; [done|]. apply H.
    + by eapply lookup_lt_Some.
    + rewrite <- (Hs row); [by eapply lookup_lt_Some|].
      by eapply list_elem_of_lookup_2.
    + apply occupied_true. exists v. by rewrite Hrow.
  - intros H r c _ _ Hocc. apply occupied_true in Hocc as (v & Hv & Hne).
    apply blocked_false; [done|]. by eapply H.
Qed.

Lemma canPlace_iff_every_cell_free_witness :
  (canPlace (createBoard 4 4) [[1;1];[1;1]] 1 1 = true ↔
   ∀ (r c : nat) (v : Z),
     ([[1;1];[1;1]] : Matrix) !! r ≫= (.!! c) = Some v → v ≠ 0 →
     free_at (createBoard 4 4) (1 + Z.of_nat r) (1 + Z.of_nat c)) ∧
  canPlace (createBoard 4 4) [[1;1];[1;1]] 1 1 = true ∧
  canPlace (createBoard 4 4) [[1;1];[1;1]] 3 3 = false.
Proof.
  apply (canPlace_iff_every_cell_free (createBoard 4 4) [[1;1];[1;1]] 1 1);
    repeat constructor.
Defined.

(** ** Line clearing *)

Lemma unshiftRows_replicate (n : nat) (empty : list cell) (kept : Board) :
  unshiftRows n empty kept = replicate n empty ++ kept.
Proof.
  revert kept. induction n as [|n IH]; intros kept; [done|].
  simpl. rewrite IH. change (empty :: kept) with ([empty] ++ kept).
  rewrite (assoc_L (++)). f_equal.
  clear IH. induction n as [|n IH]; [done|]. simpl. by rewrite IH.
Qed.

Lemma someZero_not_full (row : list cell) :
  binaryRow row → existsb isZero row = negb (fullRow row).
Proof.
  unfold fullRow. induction 1 as [|c row Hc _ IH]; [done|].
  simpl. rewrite IH, negb_andb. by destruct Hc as [-> | ->].
Qed.

Lemma filter_length_split {A} (f : A → bool) (l : list A) :
  (length (List.filter f l) + length (List.filter (λ a, negb (f a)) l))%nat
  = length l.
Proof.
  induction l as [|a l IH]; [done|]. simpl. destruct (f a); simpl; lia.
Qed.

Lemma filter_ext_elem {A} (f g : A → bool) (l : list A) :
  (∀ a, a ∈ l → f a = g a) → List.filter f l = List.filter g l.
Proof.
  induction l as [|a l IH]; intros H; [done|]. simpl.
  rewrite (H a), IH; [done| |].
  - intros a' Ha'. apply H. by right.
  - by left.
Qed.

(** C6. On a board of [w]-column rows of 0/1 cells, [clearLines] drops exactly
    the rows whose cells are all occupied, reports their number K, puts K empty
    rows on top of the remaining rows (kept in their order), and the result has
    as many rows as the input, each of [w] columns; the 4-row sample with two
    full rows reports 2. *)
Theorem clearLines_removes_full_rows (board : Board) (w : nat) :
  Forall (λ row, length row = w ∧ binaryRow row) board →
  let K := length (List.filter fullRow board) in
  clearLines board
    = (replicate K (replicate w (Num 0))
         ++ List.filter (λ row, negb (fullRow row)) board, K) ∧
  length (clearLines board).1 = length board ∧
  (∀ row, row ∈ (clearLines board).1 → length row = w) ∧
  (clearLines [[Num 1; Num 1; Num 1; Num 1]; [Num 1; Num 1; Num 1; Num 1];
               [Num 0; Num 1; Num 1; Num 1]; [Num 0; Num 0; Num 0; Num 0]]).2
    = 2%nat.
Proof.
  intros Hwf K. rewrite Forall_forall in Hwf.
  assert (List.filter (existsb isZero) board
          = List.filter (λ row, negb (fullRow row)) board) as Hkept.
  { apply filter_ext_elem. intros row Hrow. apply someZero_not_full, Hwf, Hrow. }
  assert ((length board - length (List.filter (existsb isZero) board))%nat = K)
    as Hcleared.
  { rewrite Hkept. pose proof (filter_length_split fullRow board). subst K. lia. }
  assert (K = 0%nat ∨ width0 board = w) as Hwidth.
  { destruct board as [|row board]; [by left|right].
    simpl. apply Hwf. by left. }
  assert (clearLines board
          = (replicate K (replicate w (Num 0))
               ++ List.filter (λ row, negb (fullRow row)) board, K)) as Heq.
  { unfold clearLines. rewrite Hcleared, unshiftRows_replicate, Hkept.
    destruct Hwidth as [-> | ->]; done. }
  rewrite Heq. simpl. split_and!; [done| | |done].
  - rewrite length_app, length_replicate. subst K.
    apply filter_length_split.
  - intros row [Hrow|Hrow]%elem_of_app.
    + apply elem_of_replicate in Hrow as [-> _]. apply length_replicate.
    + apply list_elem_of_In, filter_In in Hrow as [Hrow _].
      apply Hwf. by apply list_elem_of_In.
Qed.

Lemma clearLines_removes_full_rows_witness :
  clearLines [[Num 1; Num 1]; [Num 0; Num 1]]
    = ([[Num 0; Num 0]; [Num 0; Num 1]], 1%nat).
Proof.
  apply (clearLines_removes_full_rows [[Num 1; Num 1]; [Num 0; Num 1]] 2).
  repeat first [by left | by right | constructor].
Defined.

(** ** Operations without an active piece *)

(** C10. With no active piece, [step], [move], [rotate] and [hardDrop] all
    return the state they were given, whatever the fuel given to the loop of
    [hardDrop]. *)
Theorem no_piece_is_noop (s : GameState) (dx : Z) (fuel : nat) :
  piece s = None →
  step s = Ok s ∧ move dx s = Ok s ∧ rotate s = Ok s ∧
  hardDrop fuel s = Some (Ok s).
Proof.
  intros Hp. unfold hardDrop, drop, step, move, rotate. rewrite Hp. simpl.
  unfold step. rewrite Hp. by destruct (over s).
Qed.

Lemma no_piece_is_noop_witness :
  step idleState = Ok idleState ∧ move (-1) idleState = Ok idleState ∧
  rotate idleState = Ok idleState ∧ hardDrop 0 idleState = Some (Ok idleState).
Proof.
  apply (no_piece_is_noop idleState (-1) 0). reflexivity.
Defined.

(** ** Moves and rotations *)

(** C9. A move by [dx] tests the active piece's shape at column [x + dx], a
    rotation tests the next rotation state at the same anchor; a rejected
    candidate gives back the very state that was passed in, an accepted one
    changes that one field of the piece, and whenever either operation returns
    a state other than the one it was given, [canPlace] has accepted the
    candidate. *)
Theorem move_rotate_validated (s : GameState) (p : Piece.t) (dx : Z) :
  piece s = Some p →
  (∀ s', move dx s = Ok s' → s' ≠ s →
     ∃ shape, shapeAt (Piece.shape p) (Piece.r p) = Some shape ∧
              canPlace (board s) shape (Piece.x p + dx) (Piece.y p) = true) ∧
  (∀ s', rotate s = Ok s' → s' ≠ s →
     ∃ shape,
       shapeAt (Piece.shape p)
               (Z.rem (Piece.r p + 1)
                      (Z.of_nat (length (PIECE_MAP (Piece.shape p)))))
       = Some shape ∧
       canPlace (board s) shape (Piece.x p) (Piece.y p) = true) ∧
  (∀ shape, shapeAt (Piece.shape p) (Piece.r p) = Some shape →
     (canPlace (board s) shape (Piece.x p + dx) (Piece.y p) = false →
      move dx s = Ok s) ∧
     (canPlace (board s) shape (Piece.x p + dx) (Piece.y p) = true →
      move dx s = Ok (mkState (board s)
                        (Some (Piece.mk (Piece.shape p) (Piece.x p + dx)
                                        (Piece.y p) (Piece.r p)))
                        (over s) (score s)))) ∧
  (∀ shape,
     let nr := Z.rem (Piece.r p + 1)
                     (Z.of_nat (length (PIECE_MAP (Piece.shape p)))) in
     shapeAt (Piece.shape p) nr = Some shape →
     (canPlace (board s) shape (Piece.x p) (Piece.y p) = false →
      rotate s = Ok s) ∧
     (canPlace (board s) shape (Piece.x p) (Piece.y p) = true →
      rotate s = Ok (mkState (board s)
                       (Some (Piece.mk (Piece.shape p) (Piece.x p)
                                       (Piece.y p) nr))
                       (over s) (score s)))).
Proof.
  intros Hp. split_and!.
  - intros s'. unfold move. rewrite Hp.
    destruct (shapeAt _ _) as [shape|]; [|done].
    destruct (canPlace _ _ _ _) eqn:Hcan; [|by intros [= <-]].
    intros _ _. by exists shape.
  - intros s'. unfold rotate. rewrite Hp.
    destruct (shapeAt _ _) as [shape|]; [|done].
    destruct (canPlace _ _ _ _) eqn:Hcan; [|by intros [= <-]].
    intros _ _. by exists shape.
  - intros shape Hshape. unfold move. rewrite Hp, Hshape.
    split; intros ->; done.
  - intros shape nr Hshape. unfold rotate. rewrite Hp. fold nr.
    rewrite Hshape. split; intros ->; done.
Qed.

Lemma move_rotate_validated_witness :
  move (-1) barAtLeftWall = Ok barAtLeftWall ∧
  move 1 barAtLeftWall
  = Ok (mkState (createBoard 20 10) (Some (Piece.mk Kind.I 1 5 0)) false 0) ∧
  rotate barAtLeftWall
  = Ok (mkState (createBoard 20 10) (Some (Piece.mk Kind.I 0 5 1)) false 0).
Proof.
  pose proof (move_rotate_validated barAtLeftWall (Piece.mk Kind.I 0 5 0) (-1)
                eq_refl) as (_ & _ & Hleft & _).
  pose proof (move_rotate_validated barAtLeftWall (Piece.mk Kind.I 0 5 0) 1
                eq_refl) as (_ & _ & Hright & Hrot).
  split_and!.
  - apply (Hleft [[1;1;1;1]] eq_refl). reflexivity.
  - apply (Hright [[1;1;1;1]] eq_refl). reflexivity.
  - apply (Hrot [[1];[1];[1];[1]] eq_refl). reflexivity.
Defined.

(** ** The task score *)

Lemma Qmax0_floor0 (x : Q) : (Qmax 0 x == floor0 x)%Q.
Proof.
  unfold floor0. destruct (Qlt_le_dec x 0) as [Hlt|Hle].
  - apply Q.max_l. by apply Qlt_le_weak.
  - by apply Q.max_r.
Qed.

Lemma clamp01_cut01 (x : Q) : (clamp01 x == cut01 x)%Q.
Proof.
  unfold clamp01, cut01.
  destruct (Qlt_le_dec x 0) as [Hlt|Hle].
  - apply Q.max_l. apply Qle_trans with x; [apply Q.le_min_r|].
    by apply Qlt_le_weak.
  - destruct (Qlt_le_dec 1 x) as [Hlt|Hle1].
    + rewrite Q.min_l by (by apply Qlt_le_weak). by apply Q.max_r.
    + rewrite Q.min_r by done. by apply Q.max_r.
Qed.

Lemma cut01_range (x : Q) : (0 <= cut01 x)%Q ∧ (cut01 x <= 1)%Q.
Proof.
  unfold cut01. destruct (Qlt_le_dec x 0); [done|].
  destruct (Qlt_le_dec 1 x); done.
Qed.

(** C2. The task score is the weighted sum of the normalised attributes
    minus the weighted normalised complexity and the effort penalty, floored at
    0, so it is never negative; each normalised attribute lies in [0, 1] and
    the effort penalty in [0, 0.1]. *)
Theorem taskScore_formula (t : Task.t) (w : Weights.t) :
  (taskScore t w == scoreSpec t w)%Q ∧
  (0 <= taskScore t w)%Q ∧
  (∀ v, (0 <= norm v)%Q ∧ (norm v <= 1)%Q) ∧
  (0 <= effortPenaltySpec (Task.effort t))%Q ∧
  (effortPenaltySpec (Task.effort t) <= 1 # 10)%Q.
Proof.
  split_and!.
  - unfold taskScore, scoreSpec, norm, effortPenaltySpec.
    rewrite !clamp01_cut01.
    rewrite (Qmult_comm (cut01 ((Task.effort t - 1) / 7)) (1 # 10)).
    apply Qmax0_floor0.
  - apply Q.le_max_l.
  - intros v. apply cut01_range.
  - unfold effortPenaltySpec. apply Qmult_le_0_compat; [done|].
    apply cut01_range.
  - unfold effortPenaltySpec.
    destruct (cut01_range ((Task.effort t - 1) / 7)) as [_ H1].
    rewrite <- (Qmult_1_r (1 # 10)) at 2.
    apply Qmult_le_l; done.
Qed.

(** ** Random indices *)

Lemma floorTimes_range (u : Q) (n : nat) :
  unitDraw u → (0 < n)%nat → 0 ≤ floorTimes u n < Z.of_nat n.
Proof.
  intros [H0 H1] Hn. unfold floorTimes.
  assert (0 < inject_Z (Z.of_nat n))%Q as Hpos.
  { change 0%Q with (inject_Z 0). rewrite <- Zlt_Qlt. lia. }
  split.
  - change 0 with (Qfloor 0). apply Qfloor_resp_le.
    apply Qmult_le_0_compat; [done|by apply Qlt_le_weak].
  - rewrite Zlt_Qlt.
    apply Qle_lt_trans with (u * inject_Z (Z.of_nat n))%Q; [apply Qfloor_le|].
    rewrite <- (Qmult_1_l (inject_Z (Z.of_nat n))) at 2.
    by apply Qmult_lt_r.
Qed.

(** ** Spawning *)

Lemma shapeAt_0 (k : Shape) : ∃ matrix, shapeAt k 0 = Some matrix.
Proof. destruct k; eexists; reflexivity. Qed.

Lemma count_insert (inv : Inventory) (k s : Shape) (v : Z) :
  count (<[k := v]> inv) s = if decide (s = k) then v else count inv s.
Proof.
  unfold count. destruct (decide (s = k)) as [->|Hne].
  - by rewrite lookup_insert_eq.
  - by rewrite lookup_insert_ne.
Qed.

Lemma elem_of_SHAPES (s : Shape) : s ∈ SHAPES.
Proof. unfold SHAPES. destruct s; set_solver. Qed.

Lemma available_nil (inv : Inventory) :
  available inv = [] ↔ ∀ s, count inv s ≤ 0.
Proof.
  split.
  - intros Hnil s.
    destruct (Z.leb_spec (count inv s) 0) as [|Hpos]; [done|exfalso].
    assert (In s (available inv)) as Hin.
    { unfold available. apply filter_In. split; [apply list_elem_of_In, elem_of_SHAPES|].
      by apply Z.ltb_lt. }
    by rewrite Hnil in Hin.
  - intros Hall.
    destruct (available inv) as [|s l] eqn:Heq;
      [done|exfalso].
    assert (In s (available inv)) as Hin
      by (rewrite Heq; by left).
    unfold available in Hin.
    apply filter_In in Hin as [_ Hpos%Z.ltb_lt]. specialize (Hall s). lia.
Qed.

(** The outcome of a spawn, case by case. *)
Lemma spawn_cases (inv : Inventory) (u : Q) :
  unitDraw u →
  ((∀ s, count inv s ≤ 0) ∧
   spawnFromInventory inv u = Ok (mkSpawned None None None)) ∨
  (∃ k matrix,
     0 < count inv k ∧ shapeAt k 0 = Some matrix ∧
     spawnFromInventory inv u
     = Ok (mkSpawned
             (Some (Piece.mk k ((10 - Z.of_nat (width0 matrix)) `div` 2) 0 0))
             (Some k)
             (Some (<[k := Z.max 0 (count inv k - 1)]> inv)))).
Proof.
  intros Hu. unfold spawnFromInventory.
  destruct (available inv) as [|s0 l] eqn:Hav.
  { left. split; [by apply available_nil|done]. }
  right. rewrite <- Hav.
  assert (0 < length (available inv))%nat as Hlen
    by (rewrite Hav; simpl; lia).
  destruct (Nat.eqb_spec (length (available inv)) 0)
    as [|_]; [lia|].
  pose proof (floorTimes_range u _ Hu Hlen) as Hidx.
  destruct (js_get_lt (available inv)
              (floorTimes u (length (available inv)))
              Hidx) as [k Hk].
  rewrite Hk. destruct (shapeAt_0 k) as [matrix Hm]. rewrite Hm.
  exists k, matrix. split_and!; [|done..].
  apply js_get_Some in Hk as [_ Hk]. apply list_elem_of_lookup_2 in Hk.
  unfold available in Hk.
  apply list_elem_of_In, filter_In in Hk as [_ Hk]. by apply Z.ltb_lt.
Qed.

(** C5. On an inventory of non-negative counts and a draw in [0, 1),
    [spawnFromInventory] returns normally; it returns no piece exactly when all
    counts are zero (and then consumes nothing and leaves the inventory alone);
    otherwise the piece is of a kind with a positive count, which is reported
    as consumed and whose count goes down by one, at rotation 0, row 0 and
    column [(10 - matrixWidth) div 2]; with exactly one kind at count 1 that
    kind is spawned, its count becomes 0, and the next spawn returns no
    piece. *)
Theorem spawn_from_inventory (inv : Inventory) (u : Q) :
  unitDraw u → (∀ s, 0 ≤ count inv s) →
  ∃ sp, spawnFromInventory inv u = Ok sp ∧
    (spawned sp = None ↔ ∀ s, count inv s = 0) ∧
    (spawned sp = None → consumed sp = None ∧ setInv sp = None) ∧
    (∀ p, spawned sp = Some p →
       0 < count inv (Piece.shape p) ∧
       consumed sp = Some (Piece.shape p) ∧
       Piece.r p = 0 ∧ Piece.y p = 0 ∧
       (∃ matrix, shapeAt (Piece.shape p) 0 = Some matrix ∧
                  Piece.x p = (10 - Z.of_nat (width0 matrix)) `div` 2) ∧
       ∃ next, setInv sp = Some next ∧
         ∀ s, count next s
              = if decide (s = Piece.shape p) then count inv s - 1
                else count inv s) ∧
    (∀ k, count inv k = 1 → (∀ s, s ≠ k → count inv s = 0) →
       ∃ p next, spawned sp = Some p ∧ Piece.shape p = k ∧
         consumed sp = Some k ∧ setInv sp = Some next ∧ count next k = 0 ∧
         ∀ u', unitDraw u' →
           spawnFromInventory next u' = Ok (mkSpawned None None None)).
Proof.
  intros Hu Hnonneg.
  destruct (spawn_cases inv u Hu) as [[Hzero Hsp]|(k & matrix & Hk & Hm & Hsp)].
  - exists (mkSpawned None None None). split; [done|]. simpl.
    assert (∀ s, count inv s = 0) as Hall.
    { intros s. specialize (Hzero s). specialize (Hnonneg s). lia. }
    split_and!; [done|done|done|].
    intros k Hk. rewrite Hall in Hk. done.
  - eexists. split; [exact Hsp|]. simpl. split_and!.
    + split; [done|]. intros Hall. specialize (Hall k). lia.
    + done.
    + intros p [= <-]. simpl. split_and!; [done..| |].
      * by exists matrix.
      * eexists. split; [done|]. intros s. rewrite count_insert.
        destruct (decide (s = k)) as [->|]; [lia|done].
    + intros k' Hk' Hothers.
      assert (k = k') as <-.
      { destruct (decide (k = k')) as [|Hne]; [done|].
        specialize (Hothers k Hne). lia. }
      eexists _, _. split_and!; [done..| |].
      * rewrite count_insert, decide_True by done. lia.
      * intros u' Hu'.
        destruct (spawn_cases (<[k := Z.max 0 (count inv k - 1)]> inv) u' Hu')
          as [[_ Hsp']|(k2 & m2 & Hk2 & _)]; [done|exfalso].
        rewrite count_insert in Hk2.
        destruct (decide (k2 = k)) as [->|Hne]; [lia|].
        specialize (Hothers k2 Hne). lia.
Qed.

Lemma spawn_from_inventory_witness :
  ∃ sp, spawnFromInventory {[ Kind.I := 1 ]} (1 # 2) = Ok sp ∧
        spawned sp = Some (Piece.mk Kind.I 3 0 0) ∧
        consumed sp = Some Kind.I.
Proof.
  destruct (spawn_from_inventory {[ Kind.I := 1 ]} (1 # 2)) as (sp & Hsp & _).
  - split; reflexivity || (intros H; discriminate H).
  - intros s. destruct s; vm_compute; intros H; discriminate H.
  - exists sp. split; [exact Hsp|].
    vm_compute in Hsp. injection Hsp as <-. split; reflexivity.
Defined.

(** ** Merging a piece into the board *)

Lemma js_get_insert {A} (l : list A) (k i : Z) (v : A) :
  0 ≤ k < Z.of_nat (length l) →
  js_get (<[Z.to_nat k := v]> l) i = if decide (i = k) then Some v else js_get l i.
Proof.
  intros Hk. unfold js_get. destruct (decide (i = k)) as [->|Hne].
  - destruct (Z.ltb_spec k 0); [lia|].
    apply list_lookup_insert_eq. lia.
  - destruct (Z.ltb_spec i 0); [done|].
    apply list_lookup_insert_ne. lia.
Qed.

Lemma inBoard_true (b : Board) (ny nx : Z) :
  inBoard b ny nx = true ↔
  ∃ cells, js_get b ny = Some cells ∧ 0 ≤ nx < Z.of_nat (length cells).
Proof.
  unfold inBoard. destruct (js_get b ny) as [cells|]; split.
  - intros [H1 H2]%andb_true_iff. exists cells. split; [done|lia].
  - intros (cells' & [= <-] & H). apply andb_true_iff. lia.
  - done.
  - by intros (? & ? & _).
Qed.

Lemma inBoard_dims (b b' : Board) (ny nx : Z) :
  dims b' = dims b → inBoard b' ny nx = inBoard b ny nx.
Proof.
  intros Hd. unfold inBoard, js_get. destruct (ny <? 0); [done|].
  assert (length <$> b' !! Z.to_nat ny = length <$> b !! Z.to_nat ny) as H.
  { unfold dims in Hd.
    by rewrite <- (list_lookup_fmap length b'), <- (list_lookup_fmap length b), Hd. }
  destruct (b' !! Z.to_nat ny), (b !! Z.to_nat ny); simplify_eq/=; [|done].
  by rewrite H.
Qed.

Lemma setCell_inBoard (b : Board) (ny nx : Z) :
  inBoard b ny nx = true →
  ∃ b', setCell b ny nx = Ok b' ∧ dims b' = dims b ∧
        ∀ i j, readCell b' i j
               = if decide (i = ny ∧ j = nx) then Some (Num 1)
                 else readCell b i j.
Proof.
  intros (cells & Hrow & Hnx)%inBoard_true. unfold setCell. rewrite Hrow.
  eexists. split; [done|].
  pose proof Hrow as [Hny Hrow']%js_get_Some.
  assert (0 ≤ ny < Z.of_nat (length b)) as Hny'.
  { apply lookup_lt_Some in Hrow'. lia. }
  assert (js_set cells nx (Num 1) = <[Z.to_nat nx := Num 1]> cells) as ->.
  { unfold js_set. destruct (Z.ltb_spec nx 0); [lia|].
    destruct (Z.ltb_spec nx (Z.of_nat (length cells))); [done|lia]. }
  split.
  - unfold dims. rewrite list_fmap_insert, length_insert.
    apply list_insert_id. by rewrite list_lookup_fmap, Hrow'.
  - intros i j. unfold readCell. rewrite js_get_insert by done.
    destruct (decide (i = ny)) as [->|Hne].
    + simpl. rewrite js_get_insert by done. rewrite Hrow. simpl.
      destruct (decide (j = nx)) as [->|Hne].
      * by rewrite decide_True.
      * rewrite decide_False; [done|]. by intros [_ ?].
    + rewrite decide_False; [done|]. by intros [? _].
Qed.

Lemma mergeCells_inside (shape : Matrix) (x y : Z) (cells : list (nat * nat)) :
  ∀ b,
    (∀ r c, (r, c) ∈ cells → occupied shape r c = true →
            inBoard b (y + Z.of_nat r) (x + Z.of_nat c) = true) →
    ∃ m, mergeCells shape x y cells b = Ok m ∧ dims m = dims b ∧
         ∀ i j, (coveredBy shape x y cells i j ∧ readCell m i j = Some (Num 1)) ∨
                (¬ coveredBy shape x y cells i j ∧ readCell m i j = readCell b i j).
Proof.
  induction cells as [|[r c] rest IH]; intros b Hin.
  { exists b. split_and!; [done..|]. intros i j. right. split; [|done].
    intros (? & ? & Hel & _). by apply elem_of_nil in Hel. }
  assert (∀ r' c', (r', c') ∈ rest → occupied shape r' c' = true →
            inBoard b (y + Z.of_nat r') (x + Z.of_nat c') = true) as Hrest.
  { intros r' c' Hel. apply Hin. by right. }
  simpl. destruct (occupied shape r c) eqn:Hocc.
  - destruct (setCell_inBoard b (y + Z.of_nat r) (x + Z.of_nat c))
      as (b' & -> & Hd & Hread).
    { apply Hin; [by left|done]. }
    simpl. destruct (IH b') as (m & -> & Hdm & Hm).
    { intros r' c' Hel Hocc'. rewrite (inBoard_dims b b') by done.
      by apply Hrest. }
    exists m. split_and!; [done|congruence|]. intros i j.
    destruct (Hm i j) as [[(r' & c' & Hel & Hocc' & -> & ->) Hone]|[Hnot Hsame]].
    + left. split; [|done]. exists r', c'. split_and!; [by right|done..].
    + rewrite Hread in Hsame.
      destruct (decide (i = y + Z.of_nat r ∧ j = x + Z.of_nat c))
        as [[Hi Hj]|Hne].
      * left. split; [|done]. exists r, c. split_and!; [by left|done..].
      * right. split; [|done].
        intros (r' & c' & [Heq|Hel]%elem_of_cons & Hocc' & Hi & Hj).
        -- simplify_eq. by apply Hne.
        -- apply Hnot. by exists r', c'.
  - destruct (IH b Hrest) as (m & -> & Hdm & Hm).
    exists m. split_and!; [done..|]. intros i j.
    destruct (Hm i j) as [[(r' & c' & Hel & Hocc' & -> & ->) Hone]|[Hnot Hsame]].
    + left. split; [|done]. exists r', c'. split_and!; [by right|done..].
    + right. split; [|done].
      intros (r' & c' & [Heq|Hel]%elem_of_cons & Hocc' & Hi & Hj).
      * simplify_eq. congruence.
      * apply Hnot. by exists r', c'.
Qed.

Lemma PIECE_MAP_sound (k : Shape) (r : Z) (shape : Matrix) :
  shapeAt k r = Some shape → soundMatrix shape = true.
Proof.
  intros [_ H]%js_get_Some.
  destruct k; destruct (Z.to_nat r) as [|[|[|[|n]]]];
    cbn in H; try discriminate H; injection H as <-; reflexivity.
Qed.

Lemma occupied_loopCells (shape : Matrix) (r c : nat) :
  soundMatrix shape = true → occupied shape r c = true →
  (r, c) ∈ loopCells shape.
Proof.
  intros [Hrect _]%andb_true_iff (v & Hv & _)%occupied_true.
  destruct (shape !! r) as [cells|] eqn:Hrow; [|done]. simpl in Hv.
  apply elem_of_loopCells. split; [by eapply lookup_lt_Some|].
  rewrite forallb_forall in Hrect.
  specialize (Hrect cells). rewrite Nat.eqb_eq in Hrect.
  rewrite <- Hrect; [by eapply lookup_lt_Some|].
  apply list_elem_of_In. by eapply list_elem_of_lookup_2.
Qed.

Lemma merge_inside (b : Board) (shape : Matrix) (x y : Z) :
  soundMatrix shape = true → inside b shape x y = true →
  ∃ m, merge b shape x y = Ok m ∧ mergedAt b shape x y m.
Proof.
  intros Hsound Hin. unfold inside in Hin. rewrite forallb_forall in Hin.
  destruct (mergeCells_inside shape x y (loopCells shape) b)
    as (m & Hm & Hd & Hcells).
  { intros r c Hel Hocc. apply list_elem_of_In, Hin in Hel.
    simpl in Hel. by rewrite Hocc in Hel. }
  exists m. split; [done|]. split; [done|]. intros i j.
  destruct (Hcells i j) as [[(r & c & _ & Hocc & -> & ->) Hone]|[Hnot Hsame]].
  - left. split; [|done]. by exists r, c.
  - right. split; [|done]. intros (r & c & Hocc & -> & ->).
    apply Hnot. exists r, c. split_and!; [|done..].
    by apply occupied_loopCells.
Qed.

(** [merge] does not validate: past the end of a row the write grows the row
    and leaves a hole, and on a row that does not exist it throws. *)
Example merge_past_row_end :
  merge [[Num 0]] [[1]] 2 0 = Ok [[Num 0; Hole; Num 1]].
Proof. reflexivity. Qed.

Example merge_below_board : merge (createBoard 2 2) [[1;1];[1;1]] 0 5 = TypeError.
Proof. reflexivity. Qed.

(** ** One tick *)

(** A piece below the last row cannot fall, and merging it throws. *)
Example step_below_board :
  step (mkState (createBoard 2 2) (Some (Piece.mk Kind.O 0 5 0)) false 0)
  = TypeError.
Proof. reflexivity. Qed.

(** The tick on any state, reachable or not.  In a state whose terminal flag
    is unset, with an active piece whose rotation index selects a rotation
    state: if the shape can be placed one row lower, the tick only increases
    the piece's row by one; if it cannot, and the piece's cells lie on the
    board, the tick sets exactly the cells under the piece to occupied, runs
    [clearLines] on that board, adds 100 per cleared line to the score and
    leaves no active piece. *)
Theorem step_falls_or_lands (s : GameState) (p : Piece.t) (shape : Matrix) :
  piece s = Some p → over s = false →
  shapeAt (Piece.shape p) (Piece.r p) = Some shape →
  (canPlace (board s) shape (Piece.x p) (Piece.y p + 1) = true →
   step s = Ok (mkState (board s)
                  (Some (Piece.mk (Piece.shape p) (Piece.x p) (Piece.y p + 1)
                                  (Piece.r p)))
                  (over s) (score s))) ∧
  (canPlace (board s) shape (Piece.x p) (Piece.y p + 1) = false →
   inside (board s) shape (Piece.x p) (Piece.y p) = true →
   ∃ merged,
     mergedAt (board s) shape (Piece.x p) (Piece.y p) merged ∧
     step s = Ok (mkState (clearLines merged).1 None (over s)
                    (score s + Z.of_nat (clearLines merged).2 * 100))).
Proof.
  intros Hp Hover Hshape. unfold step, withPiece.
  rewrite Hp, Hover, Hshape. split.
  - intros ->. reflexivity.
  - intros -> Hin.
    destruct (merge_inside (board s) shape (Piece.x p) (Piece.y p))
      as (m & -> & Hm); [by eapply PIECE_MAP_sound|done|].
    exists m. split; [done|]. simpl. by destruct (clearLines m).
Qed.

Lemma step_falls_or_lands_witness :
  step (mkState (createBoard 4 4) (Some (Piece.mk Kind.O 1 0 0)) false 0)
  = Ok (mkState (createBoard 4 4) (Some (Piece.mk Kind.O 1 1 0)) false 0) ∧
  ∃ merged,
    mergedAt (createBoard 2 2) [[1;1];[1;1]] 0 0 merged ∧
    step (mkState (createBoard 2 2) (Some (Piece.mk Kind.O 0 0 0)) false 0)
    = Ok (mkState (clearLines merged).1 None false
                  (0 + Z.of_nat (clearLines merged).2 * 100)).
Proof.
  split.
  - apply (step_falls_or_lands
             (mkState (createBoard 4 4) (Some (Piece.mk Kind.O 1 0 0)) false 0)
             (Piece.mk Kind.O 1 0 0) [[1;1];[1;1]]); reflexivity.
  - apply (step_falls_or_lands
             (mkState (createBoard 2 2) (Some (Piece.mk Kind.O 0 0 0)) false 0)
             (Piece.mk Kind.O 0 0 0) [[1;1];[1;1]]); reflexivity.
Defined.

(** The guard on the terminal flag: a state with the flag set, which the
    component never reaches, is returned as it is although its piece could
    fall. *)
Lemma step_ignores_piece_when_over :
  ¬ (∀ (s : GameState) (p : Piece.t) (shape : Matrix),
       piece s = Some p →
       shapeAt (Piece.shape p) (Piece.r p) = Some shape →
       canPlace (board s) shape (Piece.x p) (Piece.y p + 1) = true →
       step s = Ok (mkState (board s)
                      (Some (Piece.mk (Piece.shape p) (Piece.x p)
                                      (Piece.y p + 1) (Piece.r p)))
                      (over s) (score s))).
Proof.
  intros H.
  specialize (H overWithPiece (Piece.mk Kind.O 1 0 0) [[1;1];[1;1]]
                eq_refl eq_refl eq_refl).
  discriminate H.
Qed.

(** ** Rotation indices *)

Lemma js_get_is_Some {A} (a : list A) (i : Z) :
  is_Some (js_get a i) ↔ 0 ≤ i < Z.of_nat (length a).
Proof.
  split; [|apply js_get_lt].
  intros [v [Hi Hv]%js_get_Some]. apply lookup_lt_Some in Hv. lia.
Qed.

Lemma canPlace_row (b : Board) (shape : Matrix) (x y : Z) (r c : nat) :
  canPlace b shape x y = true → (r, c) ∈ loopCells shape →
  occupied shape r c = true →
  0 ≤ y + Z.of_nat r < Z.of_nat (length b).
Proof.
  intros Hcan [Hr Hc]%elem_of_loopCells Hocc.
  rewrite canPlace_true in Hcan. specialize (Hcan r c Hr Hc Hocc).
  unfold blocked in Hcan. repeat (apply orb_false_iff in Hcan as [Hcan ?]).
  lia.
Qed.

Lemma canPlace_inside (b : Board) (shape : Matrix) (x y : Z) :
  rectangular b → canPlace b shape x y = true → inside b shape x y = true.
Proof.
  intros Hrect Hcan. unfold inside. apply forallb_forall. intros [r c] Hel.
  simpl. destruct (occupied shape r c) eqn:Hocc; [simpl|done].
  apply list_elem_of_In, elem_of_loopCells in Hel as [Hr Hc].
  rewrite canPlace_true in Hcan. specialize (Hcan r c Hr Hc Hocc).
  apply blocked_false in Hcan as (cells & v & Hrow & Hv & _); [|done].
  apply inBoard_true. exists cells. split; [done|].
  by apply js_get_is_Some.
Qed.

Lemma dropLoop_exits (b : Board) (shape : Matrix) (x : Z) (r0 c0 : nat) :
  (r0, c0) ∈ loopCells shape → occupied shape r0 c0 = true →
  ∀ (f : nat) (y : Z),
    (canPlace b shape x (y + 1) = true →
     Z.of_nat (length b) - (y + 1 + Z.of_nat r0) ≤ Z.of_nat f) →
    ∃ y', dropLoop (S f) b shape x y = Some y' ∧
          (y' = y ∨ canPlace b shape x y' = true).
Proof.
  intros Hel Hocc. induction f as [|f IH]; intros y Hfuel.
  - simpl. destruct (canPlace b shape x (y + 1)) eqn:Hcan.
    + pose proof (canPlace_row _ _ _ _ _ _ Hcan Hel Hocc).
      specialize (Hfuel eq_refl). lia.
    + exists y. by split; [|left].
  - cbn [dropLoop]. destruct (canPlace b shape x (y + 1)) eqn:Hcan.
    + destruct (IH (y + 1)) as (y' & Hy' & Hor).
      { intros Hcan'. specialize (Hfuel eq_refl). lia. }
      exists y'. split; [done|]. right. by destruct Hor as [->|].
    + exists y. by split; [|left].
Qed.

Lemma soundMatrix_occupied (shape : Matrix) :
  soundMatrix shape = true →
  ∃ r0 c0, (r0, c0) ∈ loopCells shape ∧ occupied shape r0 c0 = true.
Proof.
  intros [_ Hex]%andb_true_iff. apply existsb_exists in Hex as ([r0 c0] & Hel & Hocc).
  exists r0, c0. split; [by apply list_elem_of_In|done].
Qed.

(** The loop of [hardDrop] leaves within [board.length + 1] tests. *)
Lemma dropLoop_board_fuel (b : Board) (shape : Matrix) (x y : Z) :
  soundMatrix shape = true →
  ∃ y', dropLoop (S (length b)) b shape x y = Some y' ∧
        (y' = y ∨ canPlace b shape x y' = true).
Proof.
  intros (r0 & c0 & Hel & Hocc)%soundMatrix_occupied.
  apply (dropLoop_exits b shape x r0 c0 Hel Hocc). intros Hcan.
  pose proof (canPlace_row _ _ _ _ _ _ Hcan Hel Hocc). lia.
Qed.

Lemma step_total (s : GameState) (p : Piece.t) (shape : Matrix) :
  piece s = Some p → shapeAt (Piece.shape p) (Piece.r p) = Some shape →
  inside (board s) shape (Piece.x p) (Piece.y p) = true →
  ∃ s', step s = Ok s'.
Proof.
  intros Hp Hshape Hin. unfold step. destruct (over s); [by eexists|].
  rewrite Hp, Hshape. destruct (canPlace _ _ _ _); [by eexists|].
  destruct (merge_inside (board s) shape (Piece.x p) (Piece.y p))
    as (m & -> & _); [by eapply PIECE_MAP_sound|done|].
  simpl. destruct (clearLines m). by eexists.
Qed.

(** C3 (as amended). The table is read at the stored index as it is: a
    rotation state exists exactly for the indices from 0 up to the length of
    the kind's list, and only [rotate] reduces, taking [(r + 1)] modulo that
    length, which keeps an index in range.  For an index in range, [draw]
    returns on a board with a first row, [step] returns when the piece's cells
    lie on the board, and [hardDrop] returns when moreover the board is
    rectangular, its loop leaving within [board.length + 1] tests. *)
Theorem rotation_index_in_range_total (s : GameState) (p : Piece.t) :
  piece s = Some p →
  0 ≤ Piece.r p < Z.of_nat (length (PIECE_MAP (Piece.shape p))) →
  (∀ k r, is_Some (shapeAt k r) ↔ 0 ≤ r < Z.of_nat (length (PIECE_MAP k))) ∧
  (∃ s', rotate s = Ok s' ∧
         ∀ p', piece s' = Some p' →
               0 ≤ Piece.r p' < Z.of_nat (length (PIECE_MAP (Piece.shape p')))) ∧
  (board s ≠ [] → ∃ fills, draw s = Ok fills) ∧
  (pieceOnBoard s = true → ∃ s', step s = Ok s') ∧
  (pieceOnBoard s = true → rectangular (board s) →
   ∃ s', hardDrop (S (length (board s))) s = Some (Ok s')).
Proof.
  intros Hp Hr.
  assert (∀ k r, is_Some (shapeAt k r) ↔ 0 ≤ r < Z.of_nat (length (PIECE_MAP k)))
    as Hlookup by (intros k r; apply js_get_is_Some).
  destruct (proj2 (Hlookup _ _) Hr) as [shape Hshape].
  split_and!; [done| | | |].
  - unfold rotate. rewrite Hp.
    set (nr := Z.rem _ _).
    assert (0 ≤ nr < Z.of_nat (length (PIECE_MAP (Piece.shape p)))) as Hnr.
    { subst nr. rewrite Z.rem_mod_nonneg by lia. apply Z.mod_pos_bound. lia. }
    destruct (proj2 (Hlookup _ _) Hnr) as [shape' ->].
    destruct (canPlace _ _ _ _); eexists; (split; [done|]).
    + intros p' [= <-]. done.
    + intros p' Hp'. rewrite Hp in Hp'. by injection Hp' as <-.
  - intros Hb. unfold draw. destruct (board s); [done|].
    rewrite Hp, Hshape. by eexists.
  - unfold pieceOnBoard. rewrite Hp, Hshape. intros Hin.
    by eapply step_total.
  - unfold pieceOnBoard. rewrite Hp, Hshape. intros Hin Hrect.
    unfold hardDrop, drop. rewrite Hp, Hshape.
    destruct (dropLoop_board_fuel (board s) shape (Piece.x p) (Piece.y p))
      as (y' & -> & Hy'); [by eapply PIECE_MAP_sound|].
    simpl.
    destruct (step_total
                (withPiece s (Some (Piece.mk (Piece.shape p) (Piece.x p) y'
                                             (Piece.r p))))
                (Piece.mk (Piece.shape p) (Piece.x p) y' (Piece.r p)) shape)
      as [s' Hs']; [done|done| |by exists s'; rewrite Hs'].
    simpl. destruct Hy' as [->|Hcan]; [done|]. by apply canPlace_inside.
Qed.

Lemma rotation_index_in_range_total_witness :
  (∃ s', rotate barAtLeftWall = Ok s' ∧
         ∀ p', piece s' = Some p' →
               0 ≤ Piece.r p' < Z.of_nat (length (PIECE_MAP (Piece.shape p')))) ∧
  (∃ fills, draw barAtLeftWall = Ok fills) ∧
  (∃ s', step barAtLeftWall = Ok s') ∧
  (∃ s', hardDrop 21 barAtLeftWall = Some (Ok s')).
Proof.
  destruct (rotation_index_in_range_total barAtLeftWall (Piece.mk Kind.I 0 5 0))
    as (_ & Hrot & Hdraw & Hstep & Hdrop).
  - reflexivity.
  - simpl. lia.
  - split_and!.
    + exact Hrot.
    + apply Hdraw. discriminate.
    + apply Hstep. reflexivity.
    + apply Hdrop; [reflexivity|]. repeat constructor.
Defined.

(** With the O piece stored at rotation index 1, the index taken modulo the
    length of its list would select its only rotation state, but the table is
    read at index 1: there is no such state, and [step], [hardDrop] and [draw]
    throw. *)
Lemma out_of_range_rotation_faults :
  shapeAt Kind.O (1 `mod` Z.of_nat (length (PIECE_MAP Kind.O)))
  = Some [[1;1];[1;1]] ∧
  shapeAt Kind.O 1 = None ∧
  step squareAtIndex1 = TypeError ∧
  hardDrop 21 squareAtIndex1 = Some TypeError ∧
  draw squareAtIndex1 = TypeError.
Proof. split_and!; reflexivity. Qed.

(** ** The play component over time *)

Lemma step_over (s s' : GameState) : step s = Ok s' → over s' = over s.
Proof.
  unfold step. destruct (over s) eqn:Hover; [by intros [= <-]|].
  destruct (piece s) as [p|]; [|by intros [= <-]].
  destruct (shapeAt _ _) as [shape|]; [|done].
  destruct (canPlace _ _ _ _); [by intros [= <-]|].
  destruct (merge _ _ _ _) as [m|]; [|done]. simpl.
  destruct (clearLines m). by intros [= <-].
Qed.

Lemma move_over (dx : Z) (s s' : GameState) : move dx s = Ok s' → over s' = over s.
Proof.
  unfold move. destruct (piece s) as [p|]; [|by intros [= <-]].
  destruct (shapeAt _ _) as [shape|]; [|done].
  destruct (canPlace _ _ _ _); by intros [= <-].
Qed.

Lemma rotate_over (s s' : GameState) : rotate s = Ok s' → over s' = over s.
Proof.
  unfold rotate. destruct (piece s) as [p|]; [|by intros [= <-]].
  destruct (shapeAt _ _) as [shape|]; [|done].
  destruct (canPlace _ _ _ _); by intros [= <-].
Qed.

Lemma hardDrop_over (fuel : nat) (s s' : GameState) :
  hardDrop fuel s = Some (Ok s') → over s' = over s.
Proof.
  unfold hardDrop, drop. destruct (piece s) as [p|]; simpl.
  - destruct (shapeAt _ _) as [shape|]; simpl; [|done].
    destruct (dropLoop _ _ _ _ _) as [y'|]; simpl; [|done].
    intros [= Hstep]. by apply step_over in Hstep.
  - intros [= Hstep]. by apply step_over in Hstep.
Qed.

Lemma ensurePiece_over (u : Q) (c c' : Play) :
  ensurePiece u c = Ok c' → over (state c') = over (state c).
Proof.
  unfold ensurePiece. destruct (piece (state c)); [by intros [= <-]|].
  destruct (spawnFromInventory _ _) as [sp|]; simpl; [|done].
  destruct (spawned sp); by intros [= <-].
Qed.

Lemma ensurePiece_starved (u : Q) (c : Play) :
  piece (state c) = None → (∀ k, count (inventory c) k = 0) →
  ensurePiece u c
  = Ok (mkPlay (state c) (inventory c) false (lastConsumed c) (prefill c)).
Proof.
  intros Hp Hzero. unfold ensurePiece, spawnFromInventory. rewrite Hp.
  replace (available (inventory c)) with (@nil Shape); [done|].
  symmetry. apply available_nil. intros k. by rewrite Hzero.
Qed.

(** C4 (as amended). No operation writes the terminal flag: it is false in
    every reachable state.  A spawn attempted with no active piece and an
    all-zero inventory leaves the game state as it is and clears the running
    flag of the loop, which is the pause. *)
Theorem starvation_pauses_flag_stays_unset (c : Play) :
  reachable c →
  over (state c) = false ∧
  ∀ u, piece (state c) = None → (∀ k, count (inventory c) k = 0) →
       ensurePiece u c
       = Ok (mkPlay (state c) (inventory c) false (lastConsumed c) (prefill c)).
Proof.
  intros Hreach. split; [|intros u; apply ensurePiece_starved].
  induction Hreach as [rnd inv bk _ _|c c' u _ IH _ He|c s' _ IH Hs
                      |c dx s' _ IH Hs|c s' _ IH Hs|c fuel s' _ IH Hs
                      |c c' rnd _ IH _ Hr|c on _ IH|c _ IH|c _ IH|c inv _ IH];
    simpl; try done.
  - by rewrite (ensurePiece_over _ _ _ He).
  - by rewrite (step_over _ _ Hs).
  - by rewrite (move_over _ _ _ Hs).
  - by rewrite (rotate_over _ _ Hs).
  - by rewrite (hardDrop_over _ _ _ Hs).
  - unfold reset in Hr. destruct (generateGarbage _ _ _ _ _); simpl in Hr; [|done].
    by injection Hr as <-.
Qed.

Lemma zero_draws_unit (n : nat) : unitDraw ((λ _ : nat, 0%Q) n).
Proof. split; [apply Qle_refl|reflexivity]. Qed.

Lemma starvedPlay_reachable : reachable starvedPlay.
Proof.
  apply (reach_mount (λ _, 0%Q) ∅ (garbageOfZeroDraws, 20%nat));
    [apply zero_draws_unit|].
  vm_compute. reflexivity.
Qed.

Lemma starvation_pauses_flag_stays_unset_witness :
  over (state starvedPlay) = false ∧
  ∀ u, piece (state starvedPlay) = None →
       (∀ k, count (inventory starvedPlay) k = 0) →
       ensurePiece u starvedPlay
       = Ok (mkPlay (state starvedPlay) (inventory starvedPlay) false
                    (lastConsumed starvedPlay) (prefill starvedPlay)).
Proof.
  apply (starvation_pauses_flag_stays_unset starvedPlay).
  apply starvedPlay_reachable.
Defined.

(** The component mounted over an empty inventory is starved: no piece, all
    counts zero, and the spawn attempt of [ensurePiece] returns it as it is,
    with the terminal flag still false. *)
Lemma starved_flag_not_set :
  reachable starvedPlay ∧
  piece (state starvedPlay) = None ∧
  (∀ k, count (inventory starvedPlay) k = 0) ∧
  ensurePiece 0 starvedPlay = Ok starvedPlay ∧
  over (state starvedPlay) = false.
Proof.
  split_and!; [apply starvedPlay_reachable|done|by intros []|done|done].
Qed.

Lemma reachable_over (c : Play) : reachable c → over (state c) = false.
Proof.
  induction 1 as [rnd inv bk _ _|c c' u _ IH _ He|c s' _ IH Hs
                 |c dx s' _ IH Hs|c s' _ IH Hs|c fuel s' _ IH Hs
                 |c c' rnd _ IH _ Hr|c on _ IH|c _ IH|c _ IH|c inv _ IH];
    simpl; try done.
  - by rewrite (ensurePiece_over _ _ _ He).
  - by rewrite (step_over _ _ Hs).
  - by rewrite (move_over _ _ _ Hs).
  - by rewrite (rotate_over _ _ Hs).
  - by rewrite (hardDrop_over _ _ _ Hs).
  - unfold reset in Hr. destruct (generateGarbage _ _ _ _ _); simpl in Hr; [|done].
    by injection Hr as <-.
Qed.

Lemma reachable_stepTimes (n : nat) :
  ∀ (c : Play) (s' : GameState),
    reachable c → stepTimes n (state c) = Ok s' → reachable (setState c s').
Proof.
  induction n as [|n IH]; intros c s' Hreach.
  { intros [= <-]. by destruct c. }
  simpl. destruct (step (state c)) as [s1|] eqn:Hstep; [|done]. simpl.
  intros Hrest.
  apply (IH (setState c s1) s' (reach_step c s1 Hreach Hstep) Hrest).
Qed.

Lemma stockedPlay_reachable : reachable stockedPlay.
Proof.
  apply (reach_mount (λ _, 0%Q) oneBar (garbageOfZeroDraws, 20%nat));
    [apply zero_draws_unit|].
  vm_compute. reflexivity.
Qed.

Lemma spawnedPlay_reachable : reachable spawnedPlay.
Proof.
  apply (reach_ensurePiece stockedPlay spawnedPlay 0 stockedPlay_reachable);
    [apply (zero_draws_unit 0)|].
  vm_compute. reflexivity.
Qed.

Lemma landingPlay_reachable : reachable landingPlay.
Proof.
  pose proof (reach_rotate spawnedPlay (state (barPlay 3 0 1))
                spawnedPlay_reachable eq_refl) as Hrot.
  pose proof (reach_move _ (-1) (state (barPlay 2 0 1)) Hrot eq_refl) as Hm1.
  pose proof (reach_move _ (-1) (state (barPlay 1 0 1)) Hm1 eq_refl) as Hm2.
  pose proof (reach_move _ (-1) (state (barPlay 0 0 1)) Hm2 eq_refl) as Hm3.
  apply (reachable_stepTimes 16 _ (state landingPlay) Hm3).
  vm_compute. reflexivity.
Qed.

(** ** Garbage rows *)

Lemma js_set_lt (a : list cell) (i : Z) (v : cell) :
  0 ≤ i < Z.of_nat (length a) → js_set a i v = <[Z.to_nat i := v]> a.
Proof.
  intros Hi. unfold js_set. destruct (Z.ltb_spec i 0); [lia|].
  destruct (Z.ltb_spec i (Z.of_nat (length a))); [done|lia].
Qed.

Lemma forallb_false {A} (f : A → bool) (l : list A) (a : A) :
  a ∈ l → f a = false → forallb f l = false.
Proof.
  intros Hel Hf. destruct (forallb f l) eqn:Hall; [|done].
  rewrite forallb_forall in Hall.
  rewrite (Hall a) in Hf; [done|by apply list_elem_of_In].
Qed.

Section GarbageFacts.
Variable rnd : nat → Q.
Hypothesis rnd_unit : ∀ n, unitDraw (rnd n).

Lemma fillRow_spec (gap : Z) (xs : list nat) :
  ∀ (cells : list cell) (k : nat),
    (∀ x, x ∈ xs → (x < length cells)%nat) →
    length (fillRow rnd xs gap cells k).1 = length cells ∧
    ∀ j : nat,
      (j ∈ xs → Z.of_nat j = gap →
       (fillRow rnd xs gap cells k).1 !! j = Some (Num 0)) ∧
      (j ∉ xs → (fillRow rnd xs gap cells k).1 !! j = cells !! j).
Proof.
  induction xs as [|x xs IH]; intros cells k Hlt.
  { simpl. split; [done|]. intros j. split; [by intros ?%elem_of_nil|done]. }
  assert (x < length cells)%nat as Hx by (apply Hlt; by left).
  assert (∀ v, js_set cells (Z.of_nat x) v = <[x := v]> cells) as Hset.
  { intros v. rewrite js_set_lt by lia. by rewrite Nat2Z.id. }
  assert (∀ v k',
    length (fillRow rnd xs gap (<[x := v]> cells) k').1 = length cells ∧
    ∀ j : nat,
      (j ∈ x :: xs → Z.of_nat j = gap → (Z.of_nat x = gap → v = Num 0) →
       (fillRow rnd xs gap (<[x := v]> cells) k').1 !! j = Some (Num 0)) ∧
      (j ∉ x :: xs →
       (fillRow rnd xs gap (<[x := v]> cells) k').1 !! j = cells !! j))
    as Hstep.
  { intros v k'.
    destruct (IH (<[x := v]> cells) k') as [Hlen Hcells].
    { intros x' Hx'. rewrite length_insert. apply Hlt. by right. }
    rewrite length_insert in Hlen. split; [done|]. intros j.
    destruct (Hcells j) as [Hgap Hout]. split.
    - intros Hj Hjgap Hv. destruct (decide (j ∈ xs)) as [Hjxs|Hjxs].
      + by apply Hgap.
      + apply elem_of_cons in Hj as [->|?]; [|done].
        rewrite Hout by done. rewrite list_lookup_insert_eq by done.
        by rewrite Hv.
    - intros Hj. apply not_elem_of_cons in Hj as [Hne Hj].
      rewrite Hout by done. by rewrite list_lookup_insert_ne. }
  simpl. destruct (Z.eqb_spec (Z.of_nat x) gap) as [Heq|Hne]; rewrite Hset.
  - destruct (Hstep (Num 0) k) as [Hlen Hcells]. split; [done|].
    intros j. destruct (Hcells j) as [Hgap Hout]. split; [|done].
    intros Hj Hjgap. by apply Hgap.
  - destruct (Hstep (if Qlt_le_dec (rnd k) (9 # 10) then Num 1 else Num 0) (S k))
      as [Hlen Hcells].
    split; [done|]. intros j. destruct (Hcells j) as [Hgap Hout].
    split; [|done]. intros Hj Hjgap. by apply Hgap.
Qed.

Lemma garbageRow_spec (h w i : nat) (b : Board) (k : nat) :
  (1 ≤ w)%nat → (i < h)%nat → length b = h →
  Forall (λ cells, length cells = w) b →
  ∃ b' k', garbageRow rnd h w i (b, k) = Ok (b', k') ∧
    length b' = h ∧ Forall (λ cells, length cells = w) b' ∧
    (∀ j, j ≠ (h - 1 - i)%nat → b' !! j = b !! j) ∧
    ∃ cells, b' !! (h - 1 - i)%nat = Some cells ∧ Num 0 ∈ cells.
Proof.
  intros Hw Hi Hlen Hrows. unfold garbageRow. simpl.
  replace (Z.of_nat h - 1 - Z.of_nat i) with (Z.of_nat (h - 1 - i)) by lia.
  rewrite js_get_of_nat, Nat2Z.id.
  destruct (lookup_lt_is_Some_2 b (h - 1 - i)) as [cells Hcells]; [lia|].
  rewrite Hcells.
  assert (length cells = w) as Hcw.
  { rewrite Forall_forall in Hrows. apply Hrows.
    by eapply list_elem_of_lookup_2. }
  pose proof (floorTimes_range (rnd k) w (rnd_unit k) Hw) as Hgap.
  set (gap := floorTimes (rnd k) w) in *.
  destruct (fillRow_spec gap (seq 0 w) cells (S k)) as [Hflen Hfcells].
  { intros x Hx%elem_of_seq. lia. }
  set (filled := fillRow rnd (seq 0 w) gap cells (S k)) in *.
  destruct (Hfcells (Z.to_nat gap)) as [Hat _].
  assert (filled.1 !! Z.to_nat gap = Some (Num 0)) as Hzero.
  { apply Hat; [apply elem_of_seq|]; lia. }
  rewrite (forallb_false isOne filled.1 (Num 0));
    [|by eapply list_elem_of_lookup_2|done].
  eexists _, _. split; [done|]. split_and!.
  - by rewrite length_insert.
  - apply Forall_insert; [done|]. by rewrite Hflen.
  - intros j Hj. by apply list_lookup_insert_ne.
  - exists filled.1. split; [apply list_lookup_insert_eq; lia|].
    by eapply list_elem_of_lookup_2.
Qed.

Lemma garbageRows_spec (h w : nat) :
  (1 ≤ w)%nat →
  ∀ (m n : nat) (b : Board) (k : nat),
    (n + m ≤ h)%nat → garbageInv h w n b →
    ∃ b' k', garbageRows rnd h w (seq n m) (b, k) = Ok (b', k') ∧
             garbageInv h w (n + m) b'.
Proof.
  intros Hw. induction m as [|m IH]; intros n b k Hnm Hinv.
  { exists b, k. split; [done|]. by rewrite Nat.add_0_r. }
  destruct Hinv as (Hlen & Hrows & Htop & Hbottom). simpl.
  destruct (garbageRow_spec h w n b k) as (b1 & k1 & -> & Hlen1 & Hrows1 & Hsame & Hnew);
    [done|lia|done|done|].
  simpl. destruct (IH (S n) b1 k1) as (b' & k' & -> & Hinv'); [lia| |].
  - split_and!; [done|done| |].
    + intros j Hj. rewrite Hsame by lia. apply Htop. lia.
    + intros j Hj. destruct (decide (j = h - 1 - n)%nat) as [->|Hne]; [done|].
      rewrite Hsame by done. apply Hbottom. lia.
  - exists b', k'. split; [done|]. by replace (n + S m)%nat with (S n + m)%nat by lia.
Qed.
End GarbageFacts.

(** C8. For a board of at least one column, [rows <= h] and draws in [0, 1),
    [generateGarbage] returns a board of [h] rows of [w] cells whose rows above
    the bottom [rows] are all zero, and each of the bottom [rows] rows holds a
    0. *)
Theorem generateGarbage_rows_have_gap (rnd : nat → Q) (h w rows k : nat) :
  (∀ n, unitDraw (rnd n)) → (1 ≤ w)%nat → (rows ≤ h)%nat →
  ∃ b k', generateGarbage rnd h w rows k = Ok (b, k') ∧
    length b = h ∧ Forall (λ cells, length cells = w) b ∧
    (∀ j, (j < h - rows)%nat → b !! j = Some (replicate w (Num 0))) ∧
    (∀ j, (h - rows ≤ j < h)%nat → ∃ cells, b !! j = Some cells ∧ Num 0 ∈ cells).
Proof.
  intros Hrnd Hw Hrows. unfold generateGarbage.
  apply (garbageRows_spec rnd Hrnd h w Hw rows 0 (createBoard h w) k); [lia|].
  unfold createBoard. split_and!.
  - apply length_replicate.
  - apply Forall_replicate, length_replicate.
  - intros j Hj. apply lookup_replicate_2. lia.
  - intros j Hj. lia.
Qed.

Lemma generateGarbage_rows_have_gap_witness :
  ∃ b k', generateGarbage (λ _, 0%Q) 20 10 2 0 = Ok (b, k') ∧
    length b = 20%nat ∧ Forall (λ cells, length cells = 10%nat) b ∧
    (∀ j, (j < 20 - 2)%nat → b !! j = Some (replicate 10 (Num 0))) ∧
    (∀ j, (20 - 2 ≤ j < 20)%nat → ∃ cells, b !! j = Some cells ∧ Num 0 ∈ cells).
Proof.
  apply (generateGarbage_rows_have_gap (λ _, 0%Q) 20 10 2 0);
    [apply zero_draws_unit|lia|lia].
Defined.

(** Width 0, which no caller passes and at which no row can have a gap: the
    row that is to have one is given it, and the board of one row and zero
    columns comes back with a row of one cell. *)
Lemma zero_width_garbage_grows :
  generateGarbage (λ _, 0%Q) 1 0 1 0 = Ok ([[Num 0]], 2%nat) ∧
  ¬ Forall (λ cells : list cell, length cells = 0%nat) [[Num 0]].
Proof.
  split; [reflexivity|]. intros H. by apply Forall_cons_1 in H as [? _].
Qed.

(** * Further properties of the engine *)

(** ** Grids *)

Lemma grid_dims (n w : nat) (b : Board) : grid n w b ↔ dims b = replicate n w.
Proof.
  unfold grid, dims. split.
  - intros [<- Hrows]. induction Hrows as [|cells b Hc _ IH]; [done|].
    csimpl. by f_equal.
  - revert n. induction b as [|cells b IH]; intros [|n] Hd; simplify_eq/=.
    + by split.
    + destruct (IH n) as [? ?]; [done|]. split; [by f_equal|by constructor].
Qed.

Lemma grid_rectangular (n w : nat) (b : Board) : grid n w b → rectangular b.
Proof.
  intros [_ Hrows]. unfold rectangular. destruct b as [|cells b]; [done|].
  simpl. apply Forall_cons_1 in Hrows as [Hc Hrows].
  constructor; [done|]. eapply Forall_impl; [exact Hrows|]. simpl. congruence.
Qed.

Lemma forallb_eq {A} (f g : A → bool) (l : list A) :
  (∀ a, f a = g a) → forallb f l = forallb g l.
Proof. intros H. induction l as [|a l IH]; [done|]. simpl. by rewrite H, IH. Qed.

Lemma inside_dims (b b' : Board) (shape : Matrix) (x y : Z) :
  dims b' = dims b → inside b' shape x y = inside b shape x y.
Proof.
  intros Hd. unfold inside. apply forallb_eq. intros [r c]. simpl.
  by rewrite (inBoard_dims b b').
Qed.

Lemma clearLines_eq (b : Board) :
  clearLines b
  = (replicate (length b - length (List.filter (existsb isZero) b))
               (replicate (width0 b) (Num 0))
       ++ List.filter (existsb isZero) b,
     (length b - length (List.filter (existsb isZero) b))%nat).
Proof. unfold clearLines. by rewrite unshiftRows_replicate. Qed.

Lemma filter_length_le' {A} (f : A → bool) (l : list A) :
  (length (List.filter f l) ≤ length l)%nat.
Proof. pose proof (filter_length_split f l). lia. Qed.

Lemma clearLines_grid (n w : nat) (b : Board) :
  grid n w b → grid n w (clearLines b).1.
Proof.
  intros [Hlen Hrows]. rewrite clearLines_eq. simpl. split.
  - rewrite length_app, length_replicate.
    pose proof (filter_length_le' (existsb isZero) b). lia.
  - apply Forall_app. split.
    + destruct b as [|cells b]; [done|]. apply Forall_replicate.
      rewrite length_replicate. simpl. by apply Forall_cons_1 in Hrows as [? _].
    + rewrite Forall_forall in Hrows. apply Forall_forall. intros cells Hc.
      apply list_elem_of_In, filter_In in Hc as [Hc _].
      by apply Hrows, list_elem_of_In.
Qed.

Lemma generateGarbage_grid (rnd : nat → Q) (h w rows k : nat) :
  (∀ n, unitDraw (rnd n)) → (1 ≤ w)%nat → (rows ≤ h)%nat →
  ∃ bk, generateGarbage rnd h w rows k = Ok bk ∧ garbageInv h w (0 + rows) bk.1.
Proof.
  intros Hrnd Hw Hrows. unfold generateGarbage.
  destruct (garbageRows_spec rnd Hrnd h w Hw rows 0 (createBoard h w) k)
    as (b & k' & Hb & Hinv); [lia| |by exists (b, k')].
  unfold createBoard. split_and!.
  - apply length_replicate.
  - apply Forall_replicate, length_replicate.
  - intros j Hj. apply lookup_replicate_2. lia.
  - intros j Hj. lia.
Qed.

(** ** What every reachable state satisfies *)

Lemma pieceOnBoard_placed (s : GameState) (k : Shape) (x y r : Z) (shape : Matrix) :
  rectangular (board s) → shapeAt k r = Some shape →
  canPlace (board s) shape x y = true →
  pieceOnBoard (withPiece s (Some (Piece.mk k x y r))) = true.
Proof.
  intros Hrect Hshape Hcan. unfold pieceOnBoard. simpl. rewrite Hshape.
  by apply canPlace_inside.
Qed.

Lemma step_boardInv (s s' : GameState) :
  grid 20 10 (board s) → pieceOnBoard s = true → step s = Ok s' →
  grid 20 10 (board s') ∧ pieceOnBoard s' = true.
Proof.
  intros Hgrid Hon. unfold step. destruct (over s); [by intros [= <-]|].
  unfold pieceOnBoard in Hon.
  destruct (piece s) as [p|] eqn:Hp; [|by intros [= <-]; unfold pieceOnBoard; rewrite Hp].
  destruct (shapeAt _ _) as [shape|] eqn:Hshape; [|done].
  destruct (canPlace _ _ _ _) eqn:Hcan.
  - intros [= <-]. split; [done|].
    eapply pieceOnBoard_placed; [by eapply grid_rectangular|done..].
  - destruct (merge_inside (board s) shape (Piece.x p) (Piece.y p))
      as (m & -> & Hd & _); [by eapply PIECE_MAP_sound|done|].
    simpl. intros [= <-]. split; [|done]. simpl.
    apply (clearLines_grid 20 10 m).
    apply grid_dims. rewrite Hd. by apply grid_dims.
Qed.

Lemma move_boardInv (dx : Z) (s s' : GameState) :
  grid 20 10 (board s) → pieceOnBoard s = true → move dx s = Ok s' →
  grid 20 10 (board s') ∧ pieceOnBoard s' = true.
Proof.
  intros Hgrid Hon. unfold move.
  destruct (piece s) as [p|] eqn:Hp; [|by intros [= <-]].
  destruct (shapeAt _ _) as [shape|] eqn:Hshape; [|done].
  destruct (canPlace _ _ _ _) eqn:Hcan; intros [= <-]; [|done].
  split; [done|].
  eapply pieceOnBoard_placed; [by eapply grid_rectangular|done..].
Qed.

Lemma rotate_boardInv (s s' : GameState) :
  grid 20 10 (board s) → pieceOnBoard s = true → rotate s = Ok s' →
  grid 20 10 (board s') ∧ pieceOnBoard s' = true.
Proof.
  intros Hgrid Hon. unfold rotate.
  destruct (piece s) as [p|] eqn:Hp; [|by intros [= <-]].
  destruct (shapeAt _ _) as [shape|] eqn:Hshape; [|done].
  destruct (canPlace _ _ _ _) eqn:Hcan; intros [= <-]; [|done].
  split; [done|].
  eapply pieceOnBoard_placed; [by eapply grid_rectangular|done..].
Qed.

Lemma drop_boardInv (fuel : nat) (s s' : GameState) :
  grid 20 10 (board s) → pieceOnBoard s = true → drop fuel s = Some (Ok s') →
  grid 20 10 (board s') ∧ pieceOnBoard s' = true.
Proof.
  intros Hgrid Hon. unfold drop. pose proof Hon as Hon'.
  unfold pieceOnBoard in Hon.
  destruct (piece s) as [p|] eqn:Hp; [|by intros [= <-]].
  destruct (shapeAt _ _) as [shape|] eqn:Hshape; [|done].
  destruct (dropLoop _ _ _ _ _) as [y'|] eqn:Hloop; simpl; [|done].
  intros [= <-]. split; [done|].
  assert (y' = Piece.y p ∨ canPlace (board s) shape (Piece.x p) y' = true) as [->|Hcan].
  { clear -Hloop. revert Hloop. generalize (Piece.y p) as y.
    induction fuel as [|fuel IH]; intros y; [done|]. simpl.
    destruct (canPlace _ _ _ (y + 1)) eqn:Hcan; [|intros [= <-]; by left].
    intros [->|?]%IH; by right. }
  - unfold pieceOnBoard. simpl. by rewrite Hshape.
  - eapply pieceOnBoard_placed; [by eapply grid_rectangular|done..].
Qed.

Lemma hardDrop_boardInv (fuel : nat) (s s' : GameState) :
  grid 20 10 (board s) → pieceOnBoard s = true →
  hardDrop fuel s = Some (Ok s') →
  grid 20 10 (board s') ∧ pieceOnBoard s' = true.
Proof.
  intros Hgrid Hon. unfold hardDrop.
  destruct (drop fuel s) as [[s1|]|] eqn:Hdrop; simpl; [|done..].
  intros [= Hstep].
  destruct (drop_boardInv _ _ _ Hgrid Hon Hdrop) as [Hgrid1 Hon1].
  by eapply step_boardInv.
Qed.

Lemma spawn_on_board (b : Board) (k : Shape) (matrix : Matrix) :
  grid 20 10 b → shapeAt k 0 = Some matrix →
  inside b matrix ((10 - Z.of_nat (width0 matrix)) `div` 2) 0 = true.
Proof.
  intros Hgrid Hm.
  rewrite (inside_dims (createBoard 20 10) b).
  - destruct k; injection Hm as <-; reflexivity.
  - apply grid_dims in Hgrid. by rewrite Hgrid.
Qed.

Lemma ensurePiece_boardInv (u : Q) (c c' : Play) :
  unitDraw u → boardInv c → ensurePiece u c = Ok c' → boardInv c'.
Proof.
  intros Hu [Hgrid Hon]. unfold ensurePiece.
  destruct (piece (state c)) eqn:Hp; [by intros [= <-]|].
  destruct (spawn_cases (inventory c) u Hu) as [[_ ->]|(k & m & _ & Hm & ->)];
    simpl; intros [= <-]; [done|].
  split; [done|]. unfold pieceOnBoard. simpl. rewrite Hm.
  by apply spawn_on_board with k.
Qed.

Lemma garbage_boardInv (rnd : nat → Q) (rows : nat) (bk : Board * nat) :
  (∀ n, unitDraw (rnd n)) → (rows ≤ 20)%nat →
  generateGarbage rnd 20 10 rows 0 = Ok bk → grid 20 10 bk.1.
Proof.
  intros Hrnd Hrows Hg.
  destruct (generateGarbage_grid rnd 20 10 rows 0 Hrnd) as (bk' & Hbk & Hinv);
    [lia|done|].
  rewrite Hg in Hbk. injection Hbk as <-. by destruct Hinv as (? & ? & _).
Qed.

Lemma reachable_boardInv (c : Play) : reachable c → boardInv c.
Proof.
  induction 1 as [rnd inv bk Hrnd Hg|c c' u _ IH Hu He|c s' _ [IHg IHp] Hs
                 |c dx s' _ [IHg IHp] Hs|c s' _ [IHg IHp] Hs
                 |c fuel s' _ [IHg IHp] Hs
                 |c c' rnd _ IH Hrnd Hr|c on _ IH|c _ IH|c _ IH|c inv _ IH];
    try done.
  - split; [|done]. simpl. eapply garbage_boardInv; [done| |done]. lia.
  - by eapply ensurePiece_boardInv.
  - by eapply step_boardInv.
  - by eapply move_boardInv.
  - by eapply rotate_boardInv.
  - by eapply hardDrop_boardInv.
  - unfold reset in Hr.
    destruct (generateGarbage _ _ _ _ _) as [bk|] eqn:Hg; simpl in Hr; [|done].
    injection Hr as <-. split; [|done]. simpl.
    eapply garbage_boardInv; [done| |done]. lia.
Qed.

(** X1. Every reachable state of the play component has a board of 20 rows of
    10 cells, and its active piece, if there is one, has a rotation state for
    its rotation index and all its occupied cells on the board. *)
Theorem reachable_board_and_piece (c : Play) :
  reachable c →
  length (board (state c)) = 20%nat ∧
  Forall (λ cells, length cells = 10%nat) (board (state c)) ∧
  ∀ p, piece (state c) = Some p →
       ∃ shape, shapeAt (Piece.shape p) (Piece.r p) = Some shape ∧
                inside (board (state c)) shape (Piece.x p) (Piece.y p) = true.
Proof.
  intros [[Hlen Hrows] Hon]%reachable_boardInv. split_and!; [done..|].
  intros p Hp. unfold pieceOnBoard in Hon. rewrite Hp in Hon.
  destruct (shapeAt _ _) as [shape|]; [|done]. by exists shape.
Qed.

Lemma reachable_board_and_piece_witness :
  length (board (state landingPlay)) = 20%nat ∧
  Forall (λ cells, length cells = 10%nat) (board (state landingPlay)) ∧
  ∃ shape, shapeAt Kind.I 1 = Some shape ∧
           inside (board (state landingPlay)) shape 0 16 = true.
Proof.
  destruct (reachable_board_and_piece landingPlay landingPlay_reachable)
    as (Hlen & Hrows & Hpiece).
  split_and!; [done..|]. apply (Hpiece (Piece.mk Kind.I 0 16 1)). reflexivity.
Defined.

(** X2. In every reachable state of the play component no operation throws:
    [step], [move], [rotate], [draw] and [ensurePiece] (on a draw in [0, 1))
    return, and so does [hardDrop], whose loop ends within 21 tests. *)
Theorem reachable_operations_return (c : Play) (dx : Z) :
  reachable c →
  (∃ s', step (state c) = Ok s') ∧
  (∃ s', move dx (state c) = Ok s') ∧
  (∃ s', rotate (state c) = Ok s') ∧
  (∃ s', hardDrop 21 (state c) = Some (Ok s')) ∧
  (∃ fills, draw (state c) = Ok fills) ∧
  (∀ u, unitDraw u → ∃ c', ensurePiece u c = Ok c').
Proof.
  intros [[Hlen Hrows] Hon]%reachable_boardInv.
  assert (rectangular (board (state c))) as Hrect
    by (by apply (grid_rectangular 20 10)).
  unfold pieceOnBoard in Hon.
  destruct (piece (state c)) as [p|] eqn:Hp.
  - destruct (shapeAt (Piece.shape p) (Piece.r p)) as [shape|] eqn:Hshape; [|done].
    split_and!.
    + by eapply step_total.
    + unfold move. rewrite Hp, Hshape. destruct (canPlace _ _ _ _); by eexists.
    + unfold rotate. rewrite Hp.
      assert (0 ≤ Piece.r p < Z.of_nat (length (PIECE_MAP (Piece.shape p))))
        as Hr by (apply js_get_is_Some; unfold shapeAt in Hshape; by rewrite Hshape).
      set (nr := Z.rem _ _).
      assert (0 ≤ nr < Z.of_nat (length (PIECE_MAP (Piece.shape p)))) as Hnr.
      { subst nr. rewrite Z.rem_mod_nonneg by lia. apply Z.mod_pos_bound. lia. }
      apply js_get_is_Some in Hnr as [shape' Hshape']. unfold shapeAt.
      rewrite Hshape'. destruct (canPlace _ _ _ _); by eexists.
    + unfold hardDrop, drop. rewrite Hp, Hshape.
      replace 21%nat with (S (length (board (state c)))) by (by rewrite Hlen).
      destruct (dropLoop_board_fuel (board (state c)) shape (Piece.x p) (Piece.y p))
        as (y' & -> & Hy'); [by eapply PIECE_MAP_sound|].
      simpl.
      destruct (step_total
                  (withPiece (state c)
                     (Some (Piece.mk (Piece.shape p) (Piece.x p) y' (Piece.r p))))
                  (Piece.mk (Piece.shape p) (Piece.x p) y' (Piece.r p)) shape)
        as [s' Hs']; [done|done| |by exists s'; rewrite Hs'].
      simpl. destruct Hy' as [->|Hcan]; [done|]. by apply canPlace_inside.
    + unfold draw. destruct (board (state c)); [done|].
      rewrite Hp, Hshape. by eexists.
    + intros u _. unfold ensurePiece. rewrite Hp. by eexists.
  - split_and!.
    + unfold step. rewrite Hp. destruct (over _); by eexists.
    + unfold move. rewrite Hp. by eexists.
    + unfold rotate. rewrite Hp. by eexists.
    + unfold hardDrop, drop. rewrite Hp. simpl. unfold step. rewrite Hp.
      destruct (over _); by eexists.
    + unfold draw. destruct (board (state c)); [done|]. rewrite Hp. by eexists.
    + intros u Hu. unfold ensurePiece. rewrite Hp.
      destruct (spawn_cases (inventory c) u Hu) as [[_ ->]|(k & m & _ & _ & ->)];
        simpl; by eexists.
Qed.

Lemma reachable_operations_return_witness :
  (∃ s', step (state landingPlay) = Ok s') ∧
  (∃ s', move 1 (state landingPlay) = Ok s') ∧
  (∃ s', rotate (state landingPlay) = Ok s') ∧
  (∃ s', hardDrop 21 (state landingPlay) = Some (Ok s')) ∧
  (∃ fills, draw (state landingPlay) = Ok fills) ∧
  (∀ u, unitDraw u → ∃ c', ensurePiece u landingPlay = Ok c').
Proof.
  apply (reachable_operations_return landingPlay 1). apply landingPlay_reachable.
Defined.

(** ** Score and prefill *)

Lemma step_score (s s' : GameState) :
  step s = Ok s' → ∃ lines : nat, score s' = score s + Z.of_nat lines * 100.
Proof.
  unfold step. destruct (over s); [intros [= <-]; exists 0%nat; lia|].
  destruct (piece s) as [p|]; [|intros [= <-]; exists 0%nat; lia].
  destruct (shapeAt _ _) as [shape|]; [|done].
  destruct (canPlace _ _ _ _); [intros [= <-]; exists 0%nat; simpl; lia|].
  destruct (merge _ _ _ _) as [m|]; [|done]. simpl.
  intros [= <-]. simpl. by eexists.
Qed.

Lemma hardDrop_score (fuel : nat) (s s' : GameState) :
  hardDrop fuel s = Some (Ok s') →
  ∃ lines : nat, score s' = score s + Z.of_nat lines * 100.
Proof.
  unfold hardDrop, drop. destruct (piece s) as [p|]; simpl.
  - destruct (shapeAt _ _) as [shape|]; simpl; [|done].
    destruct (dropLoop _ _ _ _ _) as [y'|]; simpl; [|done].
    intros [= Hstep]. by apply step_score in Hstep.
  - intros [= Hstep]. by apply step_score in Hstep.
Qed.

Lemma move_score (dx : Z) (s s' : GameState) : move dx s = Ok s' → score s' = score s.
Proof.
  unfold move. destruct (piece s) as [p|]; [|by intros [= <-]].
  destruct (shapeAt _ _) as [shape|]; [|done].
  destruct (canPlace _ _ _ _); by intros [= <-].
Qed.

Lemma rotate_score (s s' : GameState) : rotate s = Ok s' → score s' = score s.
Proof.
  unfold rotate. destruct (piece s) as [p|]; [|by intros [= <-]].
  destruct (shapeAt _ _) as [shape|]; [|done].
  destruct (canPlace _ _ _ _); by intros [= <-].
Qed.

Lemma ensurePiece_score (u : Q) (c c' : Play) :
  ensurePiece u c = Ok c' → score (state c') = score (state c).
Proof.
  unfold ensurePiece. destruct (piece (state c)); [by intros [= <-]|].
  destruct (spawnFromInventory _ _) as [sp|]; simpl; [|done].
  destruct (spawned sp); by intros [= <-].
Qed.

(** X3. The score of a reachable state is a non-negative multiple of 100; a
    tick or a hard drop adds 100 times a number of lines to it, and moves,
    rotations and spawns leave it as it is. *)
Theorem reachable_score_multiple_of_100 (c : Play) :
  reachable c →
  (∃ lines : nat, score (state c) = Z.of_nat lines * 100) ∧
  (∀ s', step (state c) = Ok s' →
         ∃ lines : nat, score s' = score (state c) + Z.of_nat lines * 100) ∧
  (∀ fuel s', hardDrop fuel (state c) = Some (Ok s') →
         ∃ lines : nat, score s' = score (state c) + Z.of_nat lines * 100) ∧
  (∀ dx s', move dx (state c) = Ok s' → score s' = score (state c)) ∧
  (∀ s', rotate (state c) = Ok s' → score s' = score (state c)) ∧
  (∀ u c', ensurePiece u c = Ok c' → score (state c') = score (state c)).
Proof.
  intros Hreach. split_and!.
  - induction Hreach as [rnd inv bk _ _|c c' u _ IH _ He|c s' _ IH Hs
                        |c dx s' _ IH Hs|c s' _ IH Hs|c fuel s' _ IH Hs
                        |c c' rnd _ IH _ Hr|c on _ IH|c _ IH|c _ IH|c inv _ IH];
      simpl; try done.
    + by exists 0%nat.
    + by rewrite (ensurePiece_score _ _ _ He).
    + destruct IH as [n Hn]. destruct (step_score _ _ Hs) as [l Hl].
      exists (n + l)%nat. lia.
    + by rewrite (move_score _ _ _ Hs).
    + by rewrite (rotate_score _ _ Hs).
    + destruct IH as [n Hn]. destruct (hardDrop_score _ _ _ Hs) as [l Hl].
      exists (n + l)%nat. lia.
    + unfold reset in Hr.
      destruct (generateGarbage _ _ _ _ _); simpl in Hr; [|done].
      injection Hr as <-. by exists 0%nat.
  - intros s'. apply step_score.
  - intros fuel s'. apply hardDrop_score.
  - intros dx s'. apply move_score.
  - intros s'. apply rotate_score.
  - intros u c'. apply ensurePiece_score.
Qed.

Lemma reachable_score_multiple_of_100_witness :
  (∃ lines : nat, score (state landingPlay) = Z.of_nat lines * 100) ∧
  step (state landingPlay) = Ok landedState ∧
  (∃ lines : nat,
     score landedState = score (state landingPlay) + Z.of_nat lines * 100) ∧
  hardDrop 21 (state spawnedPlay)
  = Some (Ok (mkState (replicate 17 (replicate 10 (Num 0))
                       ++ [replicate 3 (Num 0) ++ replicate 4 (Num 1)
                           ++ replicate 3 (Num 0)]
                       ++ replicate 2 (Num 0 :: replicate 9 (Num 1)))
                      None false 0)) ∧
  move 1 (state landingPlay) = Ok (state landingPlay) ∧
  score (state landingPlay) = score (state landingPlay).
Proof.
  destruct (reachable_score_multiple_of_100 landingPlay landingPlay_reachable)
    as (Hscore & Hstep & _ & Hmove & _).
  assert (step (state landingPlay) = Ok landedState) as Hland by reflexivity.
  assert (move 1 (state landingPlay) = Ok (state landingPlay)) as Hwall
    by reflexivity.
  split_and!; [exact Hscore|exact Hland|exact (Hstep landedState Hland)
              |reflexivity|exact Hwall|exact (Hmove 1 _ Hwall)].
Defined.

(** X4. The prefill setting of a reachable state stays between 0 and 10, so
    the clamp in [reset] changes nothing: [reset] asks for exactly [prefill]
    garbage rows and returns a fresh state with no piece, flag unset, score 0
    and the loop stopped. *)
Theorem reachable_prefill_range (c : Play) (rnd : nat → Q) :
  reachable c → (∀ n, unitDraw (rnd n)) →
  0 ≤ prefill c ≤ 10 ∧
  ∃ bk, generateGarbage rnd 20 10 (Z.to_nat (prefill c)) 0 = Ok bk ∧
        reset rnd c
        = Ok (mkPlay (mkState bk.1 None false 0) (inventory c) false
                     (lastConsumed c) (prefill c)).
Proof.
  intros Hreach Hrnd.
  assert (0 ≤ prefill c ≤ 10) as Hpre.
  { clear rnd Hrnd.
    induction Hreach as [rnd inv bk _ _|c c' u _ IH _ He|c s' _ IH Hs
                        |c dx s' _ IH Hs|c s' _ IH Hs|c fuel s' _ IH Hs
                        |c c' rnd _ IH _ Hr|c on _ IH|c _ IH|c _ IH|c inv _ IH];
      simpl; try done; try lia.
    - unfold ensurePiece in He. destruct (piece (state c)); [by injection He as <-|].
      destruct (spawnFromInventory _ _) as [sp|]; simpl in He; [|done].
      destruct (spawned sp); by injection He as <-.
    - unfold reset in Hr.
      destruct (generateGarbage _ _ _ _ _); simpl in Hr; [|done].
      by injection Hr as <-. }
  split; [done|]. unfold reset.
  replace (Z.max 0 (Z.min 10 (prefill c))) with (prefill c) by lia.
  destruct (generateGarbage_grid rnd 20 10 (Z.to_nat (prefill c)) 0 Hrnd)
    as (bk & Hbk & _); [lia|lia|].
  exists bk. by rewrite Hbk.
Qed.

Lemma reachable_prefill_range_witness :
  0 ≤ prefill starvedPlay ≤ 10 ∧
  ∃ bk, generateGarbage (λ _, 0%Q) 20 10 (Z.to_nat (prefill starvedPlay)) 0 = Ok bk ∧
        reset (λ _, 0%Q) starvedPlay
        = Ok (mkPlay (mkState bk.1 None false 0) (inventory starvedPlay) false
                     (lastConsumed starvedPlay) (prefill starvedPlay)).
Proof.
  apply (reachable_prefill_range starvedPlay (λ _, 0%Q));
    [apply starvedPlay_reachable|apply zero_draws_unit].
Defined.

(** ** Hard drop *)

Lemma dropLoop_lowest (b : Board) (shape : Matrix) (x : Z) (fuel : nat) :
  ∀ y y', dropLoop fuel b shape x y = Some y' →
          y ≤ y' ∧ canPlace b shape x (y' + 1) = false ∧
          ∀ z, y < z ≤ y' → canPlace b shape x z = true.
Proof.
  induction fuel as [|fuel IH]; intros y y'; [done|]. simpl.
  destruct (canPlace b shape x (y + 1)) eqn:Hcan.
  - intros (Hle & Hstop & Hbetween)%IH. split_and!; [lia|done|].
    intros z Hz. destruct (decide (z = y + 1)) as [->|Hne]; [done|].
    apply Hbetween. lia.
  - intros [= <-]. split_and!; [lia|done|]. intros z Hz. lia.
Qed.

(** X5. A hard drop of a piece that lies on a rectangular board, flag unset,
    always lands it: the piece goes down through free positions to the lowest
    row [y'] from which it cannot go one further, is merged there, the full
    lines are cleared and scored, and the state is left without active
    piece. *)
Theorem hardDrop_lands (s : GameState) (p : Piece.t) (shape : Matrix) :
  piece s = Some p → over s = false →
  shapeAt (Piece.shape p) (Piece.r p) = Some shape →
  rectangular (board s) →
  inside (board s) shape (Piece.x p) (Piece.y p) = true →
  ∃ y' merged,
    Piece.y p ≤ y' ∧
    (∀ z, Piece.y p < z ≤ y' → canPlace (board s) shape (Piece.x p) z = true) ∧
    canPlace (board s) shape (Piece.x p) (y' + 1) = false ∧
    mergedAt (board s) shape (Piece.x p) y' merged ∧
    hardDrop (S (length (board s))) s
    = Some (Ok (mkState (clearLines merged).1 None false
                        (score s + Z.of_nat (clearLines merged).2 * 100))).
Proof.
  intros Hp Hover Hshape Hrect Hin.
  pose proof (PIECE_MAP_sound _ _ _ Hshape) as Hsound.
  destruct (dropLoop_board_fuel (board s) shape (Piece.x p) (Piece.y p) Hsound)
    as (y' & Hloop & Hy').
  destruct (dropLoop_lowest _ _ _ _ _ _ Hloop) as (Hle & Hstop & Hbetween).
  destruct (merge_inside (board s) shape (Piece.x p) y' Hsound)
    as (m & Hm & Hmerged).
  { destruct Hy' as [->|Hcan]; [done|]. by apply canPlace_inside. }
  exists y', m. split_and!; [done..|].
  unfold hardDrop, drop. rewrite Hp, Hshape, Hloop. simpl.
  unfold step. simpl. rewrite Hover, Hshape, Hstop, Hm. simpl.
  by destruct (clearLines m).
Qed.

Lemma hardDrop_lands_witness :
  ∃ y' merged,
    5 ≤ y' ∧
    (∀ z, 5 < z ≤ y' → canPlace (createBoard 20 10) [[1;1;1;1]] 0 z = true) ∧
    canPlace (createBoard 20 10) [[1;1;1;1]] 0 (y' + 1) = false ∧
    mergedAt (createBoard 20 10) [[1;1;1;1]] 0 y' merged ∧
    hardDrop 21 barAtLeftWall
    = Some (Ok (mkState (clearLines merged).1 None false
                        (0 + Z.of_nat (clearLines merged).2 * 100))).
Proof.
  apply (hardDrop_lands barAtLeftWall (Piece.mk Kind.I 0 5 0) [[1;1;1;1]]);
    try reflexivity.
  repeat constructor.
Defined.

(** ** More on line clearing *)

Lemma filter_all {A} (f : A → bool) (l : list A) :
  Forall (λ a, f a = true) l → List.filter f l = l.
Proof. induction 1 as [|a l Ha _ IH]; [done|]. simpl. by rewrite Ha, IH. Qed.

Lemma filter_none {A} (f : A → bool) (l : list A) :
  Forall (λ a, f a = false) l → List.filter f l = [].
Proof. induction 1 as [|a l Ha _ IH]; [done|]. simpl. by rewrite Ha. Qed.

Lemma clearLines_nothing_full (b : Board) :
  Forall (λ cells, existsb isZero cells = true) b → clearLines b = (b, 0%nat).
Proof.
  intros Hall. rewrite clearLines_eq, filter_all by done.
  by rewrite Nat.sub_diag.
Qed.

Lemma clearLines_rows_have_zero (b : Board) :
  (0 < width0 b)%nat →
  Forall (λ cells, existsb isZero cells = true) (clearLines b).1.
Proof.
  intros Hw. rewrite clearLines_eq. simpl. apply Forall_app. split.
  - apply Forall_replicate. destruct (width0 b); [lia|done].
  - apply Forall_forall. intros cells Hc.
    by apply list_elem_of_In, filter_In in Hc as [_ Hc].
Qed.

(** X6. On any board, ragged or with holes, [clearLines] returns as many rows
    as it was given and reports at most that many lines; when the first row
    has at least one cell, no row of the result is without a 0, so clearing
    the result again changes nothing and reports 0 lines. *)
Theorem clearLines_idempotent (b : Board) :
  length (clearLines b).1 = length b ∧
  ((clearLines b).2 ≤ length b)%nat ∧
  ((0 < width0 b)%nat →
   clearLines (clearLines b).1 = ((clearLines b).1, 0%nat)).
Proof.
  split_and!.
  - rewrite clearLines_eq. simpl. rewrite length_app, length_replicate.
    pose proof (filter_length_le' (existsb isZero) b). lia.
  - rewrite clearLines_eq. simpl. lia.
  - intros Hw. by apply clearLines_nothing_full, clearLines_rows_have_zero.
Qed.

Lemma clearLines_idempotent_witness :
  clearLines (clearLines [[Num 1; Num 1]; [Num 0; Num 1]]).1
  = ((clearLines [[Num 1; Num 1]; [Num 0; Num 1]]).1, 0%nat).
Proof.
  apply (clearLines_idempotent [[Num 1; Num 1]; [Num 0; Num 1]]). simpl. lia.
Defined.

(** X7. On a board whose rows have no cell at all, every row counts as full:
    [clearLines] returns the board as it is and reports all its rows as
    cleared, however often it is run. *)
Theorem clearLines_zero_width (b : Board) :
  Forall (λ cells, cells = []) b → clearLines b = (b, length b).
Proof.
  intros Hempty. rewrite clearLines_eq, filter_none.
  - simpl. rewrite Nat.sub_0_r, app_nil_r. f_equal.
    induction Hempty as [|cells b -> Hb IH]; [done|]. simpl. f_equal.
    destruct b as [|cells' b']; [done|].
    apply Forall_cons_1 in Hb as [-> _]. exact IH.
  - eapply Forall_impl; [exact Hempty|]. by intros cells ->.
Qed.

Lemma clearLines_zero_width_witness : clearLines [[]; []] = ([[]; []], 2%nat).
Proof. apply (clearLines_zero_width [[]; []]). repeat constructor. Defined.

(** ** More on garbage rows *)

Lemma garbageInv_rows_have_zero (h w n : nat) (b : Board) :
  (1 ≤ w)%nat → (n ≤ h)%nat → garbageInv h w n b →
  Forall (λ cells, existsb isZero cells = true) b.
Proof.
  intros Hw Hn (Hlen & _ & Htop & Hbottom).
  apply Forall_lookup. intros j cells Hj.
  pose proof (lookup_lt_Some _ _ _ Hj) as Hlt.
  destruct (decide (j < h - n)%nat) as [Hup|Hdown].
  - rewrite Htop in Hj by done. injection Hj as <-.
    destruct w; [lia|done].
  - destruct (Hbottom j) as (cells' & Hcells' & Hzero); [lia|].
    rewrite Hj in Hcells'. injection Hcells' as <-.
    apply existsb_exists. exists (Num 0). split; [by apply list_elem_of_In|done].
Qed.

(** X8. A freshly generated garbage board of at least one column has no full
    row: [clearLines] returns it unchanged and reports 0 lines. *)
Theorem fresh_garbage_clears_nothing (rnd : nat → Q) (h w rows k : nat) :
  (∀ n, unitDraw (rnd n)) → (1 ≤ w)%nat → (rows ≤ h)%nat →
  ∃ bk, generateGarbage rnd h w rows k = Ok bk ∧
        clearLines bk.1 = (bk.1, 0%nat).
Proof.
  intros Hrnd Hw Hrows.
  destruct (generateGarbage_grid rnd h w rows k Hrnd Hw Hrows) as (bk & Hbk & Hinv).
  exists bk. split; [done|]. apply clearLines_nothing_full.
  by apply (garbageInv_rows_have_zero h w (0 + rows)).
Qed.

Lemma fresh_garbage_clears_nothing_witness :
  ∃ bk, generateGarbage (λ _, 0%Q) 20 10 2 0 = Ok bk ∧
        clearLines bk.1 = (bk.1, 0%nat).
Proof.
  apply (fresh_garbage_clears_nothing (λ _, 0%Q) 20 10 2 0);
    [apply zero_draws_unit|lia|lia].
Defined.

Lemma garbageRows_past_top (rnd : nat → Q) (h w : nat) :
  ∀ (m n : nat) (bk : Board * nat),
    (n ≤ h)%nat → (h < n + m)%nat →
    garbageRows rnd h w (seq n m) bk = TypeError.
Proof.
  induction m as [|m IH]; intros n bk Hn Hm; [lia|]. simpl.
  destruct (decide (n = h)) as [->|Hne].
  - unfold garbageRow.
    replace (js_get bk.1 (Z.of_nat h - 1 - Z.of_nat h)) with (@None (list cell));
      [done|].
    unfold js_get. destruct (Z.ltb_spec (Z.of_nat h - 1 - Z.of_nat h) 0); [done|lia].
  - destruct (garbageRow rnd h w n bk) as [bk'|]; [|done]. simpl.
    apply IH; lia.
Qed.

(** X9. Asked for more garbage rows than the board has rows, [generateGarbage]
    throws, whatever the width and the draws: the row above the top row does
    not exist. *)
Theorem generateGarbage_too_many_rows (rnd : nat → Q) (h w rows k : nat) :
  (h < rows)%nat → generateGarbage rnd h w rows k = TypeError.
Proof.
  intros Hrows. unfold generateGarbage. apply garbageRows_past_top; lia.
Qed.

Lemma generateGarbage_too_many_rows_witness :
  generateGarbage (λ _, 0%Q) 2 3 3 0 = TypeError.
Proof. apply (generateGarbage_too_many_rows (λ _, 0%Q) 2 3 3 0). lia. Defined.

(** ** Cells of reachable boards *)

Lemma binaryRow_insert (cells : list cell) (i : nat) (v : cell) :
  binaryRow cells → v = Num 0 ∨ v = Num 1 → binaryRow (<[i := v]> cells).
Proof. intros Hb Hv. by apply Forall_insert. Qed.

Lemma fillRow_binary (rnd : nat → Q) (gap : Z) (xs : list nat) :
  ∀ (cells : list cell) (k : nat),
    (∀ x, x ∈ xs → (x < length cells)%nat) → binaryRow cells →
    binaryRow (fillRow rnd xs gap cells k).1.
Proof.
  induction xs as [|x xs IH]; intros cells k Hlt Hbin; [done|].
  assert (x < length cells)%nat as Hx by (apply Hlt; by left).
  assert (∀ v, js_set cells (Z.of_nat x) v = <[x := v]> cells) as Hset.
  { intros v. rewrite js_set_lt by lia. by rewrite Nat2Z.id. }
  assert (∀ v k', v = Num 0 ∨ v = Num 1 →
                  binaryRow (fillRow rnd xs gap (<[x := v]> cells) k').1) as Hstep.
  { intros v k' Hv. apply IH; [|by apply binaryRow_insert].
    intros x' Hx'. rewrite length_insert. apply Hlt. by right. }
  simpl. destruct (Z.of_nat x =? gap); rewrite Hset; apply Hstep; [by left|].
  destruct (Qlt_le_dec _ _); [by right|by left].
Qed.

Lemma garbageRow_binary (rnd : nat → Q) (h w i : nat) (bk bk' : Board * nat) :
  (∀ n, unitDraw (rnd n)) → (1 ≤ w)%nat →
  Forall (λ cells, length cells = w) bk.1 → Forall binaryRow bk.1 →
  garbageRow rnd h w i bk = Ok bk' → Forall binaryRow bk'.1.
Proof.
  intros Hrnd Hw Hrows Hbin. unfold garbageRow.
  destruct (js_get bk.1 _) as [cells|] eqn:Hcells; [|done].
  apply js_get_Some in Hcells as [_ Hcells].
  assert (length cells = w) as Hcw.
  { rewrite Forall_forall in Hrows. apply Hrows. by eapply list_elem_of_lookup_2. }
  assert (binaryRow cells) as Hcb.
  { rewrite Forall_forall in Hbin. apply Hbin. by eapply list_elem_of_lookup_2. }
  pose proof (fillRow_binary rnd (floorTimes (rnd bk.2) w) (seq 0 w) cells (S bk.2))
    as Hfilled.
  destruct (fillRow_spec rnd (floorTimes (rnd bk.2) w) (seq 0 w) cells (S bk.2))
    as [Hflen _].
  { intros x Hx%elem_of_seq. lia. }
  set (filled := fillRow rnd (seq 0 w) _ cells (S bk.2)) in *.
  assert (binaryRow filled.1) as Hfb.
  { apply Hfilled; [|done]. intros x Hx%elem_of_seq. lia. }
  destruct (forallb isOne filled.1); intros [= <-]; simpl.
  - apply Forall_insert; [done|].
    pose proof (floorTimes_range (rnd filled.2) w (Hrnd _) Hw) as Hidx.
    rewrite js_set_lt by lia. apply binaryRow_insert; [done|by left].
  - by apply Forall_insert.
Qed.

Lemma garbageRows_binary (rnd : nat → Q) (h w : nat) :
  (∀ n, unitDraw (rnd n)) → (1 ≤ w)%nat →
  ∀ (m n : nat) (bk bk' : Board * nat),
    (n + m ≤ h)%nat → garbageInv h w n bk.1 → Forall binaryRow bk.1 →
    garbageRows rnd h w (seq n m) bk = Ok bk' → Forall binaryRow bk'.1.
Proof.
  intros Hrnd Hw. induction m as [|m IH]; intros n bk bk' Hnm Hinv Hbin.
  { by intros [= <-]. }
  simpl. destruct (garbageRow rnd h w n bk) as [bk1|] eqn:Hrow; [|done]. simpl.
  apply (IH (S n)); [lia| |].
  - destruct bk as [b k].
    destruct (garbageRows_spec rnd Hrnd h w Hw 1 n b k) as (b1 & k1 & Hb1 & Hinv1);
      [lia|done|].
    simpl in Hb1. rewrite Hrow in Hb1. simpl in Hb1. injection Hb1 as ->.
    by replace (S n) with (n + 1)%nat by lia.
  - eapply garbageRow_binary; [done|done| |done|done].
    by destruct Hinv as (_ & ? & _).
Qed.

Lemma generateGarbage_binary (rnd : nat → Q) (h w rows k : nat) (bk : Board * nat) :
  (∀ n, unitDraw (rnd n)) → (1 ≤ w)%nat → (rows ≤ h)%nat →
  generateGarbage rnd h w rows k = Ok bk → Forall binaryRow bk.1.
Proof.
  intros Hrnd Hw Hrows. unfold generateGarbage.
  apply (garbageRows_binary rnd h w Hrnd Hw rows 0); [lia| |].
  - unfold createBoard. simpl. split_and!.
    + apply length_replicate.
    + apply Forall_replicate, length_replicate.
    + intros j Hj. apply lookup_replicate_2. lia.
    + intros j Hj. lia.
  - unfold createBoard. simpl. apply Forall_replicate, Forall_replicate. by left.
Qed.

Lemma readCell_of_nat (b : Board) (i j : nat) :
  readCell b (Z.of_nat i) (Z.of_nat j) = b !! i ≫= (.!! j).
Proof.
  unfold readCell. rewrite js_get_of_nat.
  destruct (b !! i) as [cells|]; [|done]. simpl. apply js_get_of_nat.
Qed.

Lemma mergedAt_binary (b m : Board) (shape : Matrix) (x y : Z) :
  mergedAt b shape x y m → Forall binaryRow b → Forall binaryRow m.
Proof.
  intros [_ Hcells] Hbin. apply Forall_lookup. intros i cells Hi.
  apply Forall_lookup. intros j c Hj.
  assert (readCell m (Z.of_nat i) (Z.of_nat j) = Some c) as Hread.
  { rewrite readCell_of_nat, Hi. simpl. exact Hj. }
  destruct (Hcells (Z.of_nat i) (Z.of_nat j)) as [[_ Hone]|[_ Hsame]].
  - right. congruence.
  - rewrite Hread, readCell_of_nat in Hsame.
    destruct (b !! i) as [cells'|] eqn:Hi'; [|done]. simpl in Hsame.
    rewrite Forall_lookup in Hbin. specialize (Hbin i cells' Hi').
    unfold binaryRow in Hbin. rewrite Forall_lookup in Hbin. by apply (Hbin j).
Qed.

Lemma clearLines_binary (b : Board) :
  Forall binaryRow b → Forall binaryRow (clearLines b).1.
Proof.
  intros Hbin. rewrite clearLines_eq. simpl. apply Forall_app. split.
  - apply Forall_replicate, Forall_replicate. by left.
  - rewrite Forall_forall in Hbin. apply Forall_forall. intros cells Hc.
    apply list_elem_of_In, filter_In in Hc as [Hc _].
    by apply Hbin, list_elem_of_In.
Qed.

Lemma step_binary (s s' : GameState) :
  pieceOnBoard s = true → Forall binaryRow (board s) → step s = Ok s' →
  Forall binaryRow (board s').
Proof.
  intros Hon Hbin. unfold step. destruct (over s); [by intros [= <-]|].
  unfold pieceOnBoard in Hon.
  destruct (piece s) as [p|]; [|by intros [= <-]].
  destruct (shapeAt _ _) as [shape|] eqn:Hshape; [|done].
  destruct (canPlace _ _ _ _); [by intros [= <-]|].
  destruct (merge_inside (board s) shape (Piece.x p) (Piece.y p))
    as (m & -> & Hm); [by eapply PIECE_MAP_sound|done|].
  simpl. intros [= <-]. simpl. apply (clearLines_binary m).
  by eapply mergedAt_binary.
Qed.

Lemma move_board (dx : Z) (s s' : GameState) : move dx s = Ok s' → board s' = board s.
Proof.
  unfold move. destruct (piece s) as [p|]; [|by intros [= <-]].
  destruct (shapeAt _ _) as [shape|]; [|done].
  destruct (canPlace _ _ _ _); by intros [= <-].
Qed.

Lemma rotate_board (s s' : GameState) : rotate s = Ok s' → board s' = board s.
Proof.
  unfold rotate. destruct (piece s) as [p|]; [|by intros [= <-]].
  destruct (shapeAt _ _) as [shape|]; [|done].
  destruct (canPlace _ _ _ _); by intros [= <-].
Qed.

Lemma drop_board (fuel : nat) (s s' : GameState) :
  drop fuel s = Some (Ok s') → board s' = board s.
Proof.
  unfold drop. destruct (piece s) as [p|]; [|by intros [= <-]].
  destruct (shapeAt _ _) as [shape|]; [|done].
  destruct (dropLoop _ _ _ _ _); simpl; [|done]. by intros [= <-].
Qed.

Lemma ensurePiece_board (u : Q) (c c' : Play) :
  ensurePiece u c = Ok c' → board (state c') = board (state c).
Proof.
  unfold ensurePiece. destruct (piece (state c)); [by intros [= <-]|].
  destruct (spawnFromInventory _ _) as [sp|]; simpl; [|done].
  destruct (spawned sp); by intros [= <-].
Qed.

(** X10. Every cell of the board of a reachable state is 0 or 1: the board
    never holds a hole or another number, and its rows are the 10-cell binary
    rows on which [clearLines] removes exactly the fully occupied ones. *)
Theorem reachable_board_binary (c : Play) :
  reachable c →
  Forall (λ cells, length cells = 10%nat ∧ binaryRow cells) (board (state c)).
Proof.
  intros Hreach. apply Forall_and. split.
  { by destruct (reachable_boardInv c Hreach) as [[_ ?] _]. }
  induction Hreach as [rnd inv bk Hrnd Hg|c c' u Hc IH _ He|c s' Hc IH Hs
                      |c dx s' _ IH Hs|c s' _ IH Hs|c fuel s' Hc IH Hs
                      |c c' rnd _ IH Hrnd Hr|c on _ IH|c _ IH|c _ IH|c inv _ IH];
    simpl; try done.
  - eapply (generateGarbage_binary rnd 20 10 2 0); [done|lia|lia|done].
  - by rewrite (ensurePiece_board _ _ _ He).
  - destruct (reachable_boardInv c Hc) as [_ Hon]. by eapply step_binary.
  - by rewrite (move_board _ _ _ Hs).
  - by rewrite (rotate_board _ _ Hs).
  - destruct (reachable_boardInv c Hc) as [Hgrid Hon].
    unfold hardDrop in Hs.
    destruct (drop fuel (state c)) as [[s1|]|] eqn:Hdrop; simpl in Hs; [|done..].
    injection Hs as Hs.
    destruct (drop_boardInv _ _ _ Hgrid Hon Hdrop) as [_ Hon1].
    eapply step_binary; [done| |done]. by rewrite (drop_board _ _ _ Hdrop).
  - unfold reset in Hr.
    destruct (generateGarbage _ _ _ _ _) as [bk|] eqn:Hg; simpl in Hr; [|done].
    injection Hr as <-. simpl.
    eapply (generateGarbage_binary rnd 20 10 _ 0); [done|lia| |done]. lia.
Qed.

Lemma reachable_board_binary_witness :
  Forall (λ cells, length cells = 10%nat ∧ binaryRow cells)
         (board (state starvedPlay)).
Proof. apply (reachable_board_binary starvedPlay), starvedPlay_reachable. Defined.

(** * Further properties of the task score *)

Lemma clamp01_mono (x y : Q) : (x <= y)%Q → (clamp01 x <= clamp01 y)%Q.
Proof.
  intros Hxy. unfold clamp01. apply Q.max_le_compat_l.
  by apply Q.min_le_compat_l.
Qed.

Lemma Qdiv_le_compat (x y : Q) (d : positive) :
  (x <= y)%Q → (x / inject_Z (Zpos d) <= y / inject_Z (Zpos d))%Q.
Proof. intros Hxy. unfold Qdiv. by apply Qmult_le_compat_r. Qed.

(** X11. With non-negative weights the task score does not decrease when
    impact, urgency or energy fit go up, and does not increase when complexity
    or effort go up. *)
Theorem taskScore_monotone (t1 t2 : Task.t) (w : Weights.t) :
  (0 <= Weights.impact w)%Q → (0 <= Weights.urgency w)%Q →
  (0 <= Weights.energyFit w)%Q → (0 <= Weights.complexity w)%Q →
  (Task.impact t1 <= Task.impact t2)%Q →
  (Task.urgency t1 <= Task.urgency t2)%Q →
  (Task.energyFit t1 <= Task.energyFit t2)%Q →
  (Task.complexity t2 <= Task.complexity t1)%Q →
  (Task.effort t2 <= Task.effort t1)%Q →
  (taskScore t1 w <= taskScore t2 w)%Q.
Proof.
  intros Hwi Hwu Hwf Hwc Hi Hu Hf Hc He. unfold taskScore.
  apply Q.max_le_compat_l.
  pose proof (clamp01_mono _ _ (Qdiv_le_compat _ _ 5 Hi)) as Hi'.
  pose proof (clamp01_mono _ _ (Qdiv_le_compat _ _ 5 Hu)) as Hu'.
  pose proof (clamp01_mono _ _ (Qdiv_le_compat _ _ 5 Hf)) as Hf'.
  pose proof (clamp01_mono _ _ (Qdiv_le_compat _ _ 5 Hc)) as Hc'.
  assert (Task.effort t2 - 1 <= Task.effort t1 - 1)%Q as He1 by lra.
  pose proof (clamp01_mono _ _ (Qdiv_le_compat _ _ 7 He1)) as He'.
  change (inject_Z 5) with 5%Q in *. change (inject_Z 7) with 7%Q in *.
  nra.
Qed.

Lemma taskScore_monotone_witness :
  (taskScore (Task.mk 2 3 3 2 4) defaultWeights
   <= taskScore (Task.mk 4 3 3 1 1) defaultWeights)%Q.
Proof.
  apply (taskScore_monotone (Task.mk 2 3 3 2 4) (Task.mk 4 3 3 1 1) defaultWeights);
    simpl; discriminate.
Defined.

(** X14. A value inside a dial's range stays inside it under both buttons:
    minus stops at the minimum, plus at the maximum, and elsewhere they move
    the value by one. *)
Theorem dial_keeps_range (min max value : Q) :
  (min <= value)%Q → (value <= max)%Q →
  (min <= dialMinus min value)%Q ∧ (dialMinus min value <= max)%Q ∧
  (min <= dialPlus max value)%Q ∧ (dialPlus max value <= max)%Q ∧
  ((min + 1 <= value)%Q → (dialMinus min value == value - 1)%Q) ∧
  ((value <= min + 1)%Q → (dialMinus min value == min)%Q) ∧
  ((value + 1 <= max)%Q → (dialPlus max value == value + 1)%Q) ∧
  ((max <= value + 1)%Q → (dialPlus max value == max)%Q).
Proof.
  intros Hmin Hmax. unfold dialMinus, dialPlus. split_and!.
  - apply Q.le_max_l.
  - apply Q.max_lub; lra.
  - apply Q.min_glb; lra.
  - apply Q.le_min_l.
  - intros H. apply Q.max_r. lra.
  - intros H. apply Q.max_l. lra.
  - intros H. apply Q.min_r. lra.
  - intros H. apply Q.min_l. lra.
Qed.

Lemma dial_keeps_range_witness :
  (0 <= dialMinus 0 0)%Q ∧ (dialMinus 0 0 <= 5)%Q ∧
  (0 <= dialPlus 5 0)%Q ∧ (dialPlus 5 0 <= 5)%Q ∧
  ((0 + 1 <= 0)%Q → (dialMinus 0 0 == 0 - 1)%Q) ∧
  ((0 <= 0 + 1)%Q → (dialMinus 0 0 == 0)%Q) ∧
  ((0 + 1 <= 5)%Q → (dialPlus 5 0 == 0 + 1)%Q) ∧
  ((5 <= 0 + 1)%Q → (dialPlus 5 0 == 5)%Q).
Proof. apply (dial_keeps_range 0 5 0); discriminate. Defined.

(** * Properties of the ranking *)

Lemma insertScored_perm (x : Scored) (l : list Scored) :
  insertScored x l ≡ₚ x :: l.
Proof.
  induction l as [|y l IH]; [done|]. simpl.
  destruct (Qle_bool y.2 x.2); [done|]. rewrite IH. apply Permutation_swap.
Qed.

Lemma sortByScoreDesc_perm (l : list Scored) : sortByScoreDesc l ≡ₚ l.
Proof.
  induction l as [|x l IH]; [done|]. simpl.
  rewrite insertScored_perm. by rewrite IH.
Qed.

Lemma insertScored_sorted (x : Scored) (l : list Scored) :
  StronglySorted scoresAtLeast l → StronglySorted scoresAtLeast (insertScored x l).
Proof.
  induction 1 as [|y l Hl IH Hy]; simpl.
  { repeat constructor. }
  destruct (Qle_bool y.2 x.2) eqn:Hle.
  - apply Qle_bool_iff in Hle. constructor; [by constructor|].
    constructor; [done|].
    eapply Forall_impl; [exact Hy|]. unfold scoresAtLeast. intros z Hz. lra.
  - assert (x.2 <= y.2)%Q as Hxy.
    { destruct (Qlt_le_dec x.2 y.2) as [Hlt|Hge]; [lra|].
      apply Qle_bool_iff in Hge. congruence. }
    constructor; [done|]. rewrite insertScored_perm. by constructor.
Qed.

Lemma sortByScoreDesc_sorted (l : list Scored) :
  StronglySorted scoresAtLeast (sortByScoreDesc l).
Proof.
  induction l as [|x l IH]; [constructor|]. simpl. by apply insertScored_sorted.
Qed.

Lemma insertScored_filter (q : Q) (x : Scored) (l : list Scored) :
  StronglySorted scoresAtLeast l →
  List.filter (λ e : Scored, Qeq_bool e.2 q) (insertScored x l)
  = List.filter (λ e : Scored, Qeq_bool e.2 q) (x :: l).
Proof.
  induction 1 as [|y l Hl IH Hy]; [done|]. simpl.
  destruct (Qle_bool y.2 x.2) eqn:Hle; [done|].
  simpl. rewrite IH. simpl.
  destruct (Qeq_bool x.2 q) eqn:Hx, (Qeq_bool y.2 q) eqn:Hy'; try done.
  apply Qeq_bool_iff in Hx, Hy'.
  assert (Qle_bool y.2 x.2 = true) as Hle'; [|congruence].
  apply Qle_bool_iff. rewrite Hx, Hy'. apply Qle_refl.
Qed.

Lemma insertScored_front (x : Scored) (l : list Scored) :
  Forall (scoresAtLeast x) l → insertScored x l = x :: l.
Proof.
  intros Hall. destruct l as [|y l]; [done|]. simpl.
  apply Forall_cons_1 in Hall as [Hy _].
  apply Qle_bool_iff in Hy. by rewrite Hy.
Qed.

Lemma insertScored_filter_any (P : Scored → bool) (x : Scored) (l : list Scored) :
  StronglySorted scoresAtLeast l →
  List.filter P (insertScored x l)
  = if P x then insertScored x (List.filter P l) else List.filter P l.
Proof.
  induction 1 as [|y l Hl IH Hy]; simpl.
  { by destruct (P x). }
  destruct (Qle_bool y.2 x.2) eqn:Hle.
  - simpl. destruct (P x); [|done].
    rewrite insertScored_front; [done|].
    apply Qle_bool_iff in Hle.
    assert (Forall (scoresAtLeast x) (y :: l)) as Hall.
    { constructor; [done|]. eapply Forall_impl; [exact Hy|].
      unfold scoresAtLeast. intros z Hz. lra. }
    rewrite Forall_forall in Hall. apply Forall_forall. intros z Hz.
    apply Hall. apply list_elem_of_In.
    apply list_elem_of_In in Hz.
    by apply (proj1 (filter_In P z (y :: l))) in Hz as [Hz _].
  - simpl. rewrite IH. destruct (P y), (P x); simpl; try done.
    by rewrite Hle.
Qed.

Lemma sortByScoreDesc_filter (P : Scored → bool) (l : list Scored) :
  List.filter P (sortByScoreDesc l) = sortByScoreDesc (List.filter P l).
Proof.
  induction l as [|x l IH]; [done|]. cbn [sortByScoreDesc foldr].
  fold (sortByScoreDesc l).
  rewrite insertScored_filter_any by apply sortByScoreDesc_sorted.
  rewrite IH. simpl. by destruct (P x).
Qed.

Lemma filter_filter_comm {A} (f g : A → bool) (l : list A) :
  List.filter f (List.filter g l) = List.filter g (List.filter f l).
Proof.
  induction l as [|a l IH]; [done|]. simpl.
  destruct (f a) eqn:Hf, (g a) eqn:Hg; simpl; rewrite ?Hf, ?Hg, IH; done.
Qed.

Lemma filter_fmap {A B} (f : A → B) (P : B → bool) (l : list A) :
  List.filter P (f <$> l) = f <$> List.filter (λ a, P (f a)) l.
Proof.
  induction l as [|a l IH]; [done|]. csimpl.
  destruct (P (f a)); csimpl; by rewrite IH.
Qed.

Lemma filter_andb {A} (f g : A → bool) (l : list A) :
  List.filter f (List.filter g l) = List.filter (λ a, g a && f a) l.
Proof.
  induction l as [|a l IH]; [done|]. simpl.
  destruct (g a); simpl; [|done]. destruct (f a); by rewrite IH.
Qed.

Lemma sortByScoreDesc_ties (q : Q) (l : list Scored) :
  List.filter (λ e : Scored, Qeq_bool e.2 q) (sortByScoreDesc l)
  = List.filter (λ e : Scored, Qeq_bool e.2 q) l.
Proof.
  induction l as [|x l IH]; [done|]. cbn [sortByScoreDesc foldr].
  rewrite insertScored_filter by apply sortByScoreDesc_sorted.
  simpl. fold (sortByScoreDesc l). by rewrite IH.
Qed.

Lemma elem_of_scoredUndoneBy (scoreOf : Item.t → Q) (tasks : list Item.t)
    (e : Scored) :
  e ∈ scoredUndoneBy scoreOf tasks ↔
  e.1 ∈ tasks ∧ Item.done e.1 = false ∧ e.2 = scoreOf e.1.
Proof.
  unfold scoredUndoneBy. rewrite list_elem_of_fmap. split.
  - intros (t & -> & Ht). apply list_elem_of_In, filter_In in Ht as [Ht Hd].
    split_and!; [by apply list_elem_of_In|by apply negb_true_iff|done].
  - intros (Ht & Hd & Hs). exists e.1. split.
    + destruct e as [t s]. simpl in *. by rewrite Hs.
    + apply list_elem_of_In, filter_In. split; [by apply list_elem_of_In|].
      by apply negb_true_iff.
Qed.

(** The ranking of the exact scores is the instance of [rankedBy] at
    [taskScore]. *)
Lemma ranked_rankedBy (tasks : list Item.t) (w : Weights.t) :
  ranked tasks w = rankedBy (λ t, taskScore (Item.attrs t) w) tasks.
Proof. reflexivity. Qed.

(** X15. Whatever number each task receives as its score, the ranking is the
    stable sort of the tasks not yet done by descending score: it holds
    exactly those tasks with their scores, no entry scores less than an entry
    after it, and entries of equal score stand in the order of the task
    list. *)
Theorem rankedBy_is_stable_descending_sort (scoreOf : Item.t → Q)
    (tasks : list Item.t) :
  rankedBy scoreOf tasks ≡ₚ scoredUndoneBy scoreOf tasks ∧
  StronglySorted scoresAtLeast (rankedBy scoreOf tasks) ∧
  ∀ q, List.filter (λ e : Scored, Qeq_bool e.2 q) (rankedBy scoreOf tasks)
       = List.filter (λ e : Scored, Qeq_bool e.2 q) (scoredUndoneBy scoreOf tasks).
Proof.
  unfold rankedBy. split_and!.
  - apply sortByScoreDesc_perm.
  - apply sortByScoreDesc_sorted.
  - intros q. apply sortByScoreDesc_ties.
Qed.

(** X16. The recommended task, whatever number each task receives as its
    score: [bestNextTaskId] is undefined exactly when every task is done;
    otherwise it is the id of the first task of the list among those that are
    not done and score as much as it does, and no task that is not done
    scores more. *)
Theorem bestNextTaskIdBy_is_top (scoreOf : Item.t → Q) (tasks : list Item.t) :
  (bestNextTaskIdBy scoreOf tasks = None ↔ ∀ t, t ∈ tasks → Item.done t = true) ∧
  ∀ i, bestNextTaskIdBy scoreOf tasks = Some i →
       ∃ t, t ∈ tasks ∧ Item.done t = false ∧ Item.id t = i ∧
            (∀ t', t' ∈ tasks → Item.done t' = false →
                   (scoreOf t' <= scoreOf t)%Q) ∧
            head (List.filter
                    (λ t', negb (Item.done t') && Qeq_bool (scoreOf t') (scoreOf t))
                    tasks) = Some t.
Proof.
  pose proof (sortByScoreDesc_perm (scoredUndoneBy scoreOf tasks)) as Hperm.
  pose proof (sortByScoreDesc_sorted (scoredUndoneBy scoreOf tasks)) as Hsorted.
  pose proof (λ q, sortByScoreDesc_ties q (scoredUndoneBy scoreOf tasks)) as Hties.
  unfold bestNextTaskIdBy, rankedBy.
  destruct (sortByScoreDesc (scoredUndoneBy scoreOf tasks)) as [|e l] eqn:Hsort;
    simpl.
  - split; [|done]. split; [|done]. intros _ t Ht.
    destruct (Item.done t) eqn:Hd; [done|exfalso].
    assert ((t, scoreOf t) ∈ scoredUndoneBy scoreOf tasks) as Hel
      by (by apply elem_of_scoredUndoneBy).
    rewrite <- Hperm in Hel. by apply elem_of_nil in Hel.
  - assert (e ∈ scoredUndoneBy scoreOf tasks) as He by (rewrite <- Hperm; by left).
    apply elem_of_scoredUndoneBy in He as (Het & Hed & Hes).
    split.
    + split; [done|]. intros Hall. rewrite (Hall _ Het) in Hed. done.
    + intros i [= <-]. exists e.1. split_and!; [done..| |].
      * intros t' Ht' Hd'.
        assert ((t', scoreOf t') ∈ e :: l) as Hel.
        { rewrite Hperm. by apply elem_of_scoredUndoneBy. }
        rewrite <- Hes. apply elem_of_cons in Hel as [<-|Hel]; [apply Qle_refl|].
        apply StronglySorted_inv in Hsorted as [_ Hall].
        rewrite Forall_forall in Hall. apply (Hall _ Hel).
      * specialize (Hties (scoreOf e.1)). simpl in Hties.
        assert (Qeq_bool e.2 (scoreOf e.1) = true) as Hee.
        { apply Qeq_bool_iff. by rewrite Hes. }
        rewrite Hee in Hties.
        unfold scoredUndoneBy in Hties. rewrite filter_fmap in Hties.
        simpl in Hties. rewrite filter_andb in Hties.
        destruct (List.filter _ tasks) as [|t0 l0]; [done|].
        csimpl in Hties. injection Hties as Hhd _.
        simpl. f_equal. by rewrite Hhd.
Qed.

(** X17. Removing a task takes every task of that id, and only those, out of
    the task list, and takes its entries out of the ranking without changing
    the order of the entries that remain. *)
Theorem removeTask_keeps_ranking_order (id : string) (tasks : list Item.t)
    (w : Weights.t) :
  (∀ t, t ∈ removeTask id tasks ↔ t ∈ tasks ∧ Item.id t ≠ id) ∧
  ranked (removeTask id tasks) w
  = List.filter (λ e : Scored, negb (String.eqb (Item.id e.1) id)) (ranked tasks w).
Proof.
  split.
  - intros t. unfold removeTask. rewrite list_elem_of_In, filter_In.
    rewrite <- list_elem_of_In, negb_true_iff, String.eqb_neq. done.
  - unfold ranked. rewrite sortByScoreDesc_filter. f_equal.
    unfold scoredUndone, removeTask. rewrite filter_fmap. simpl. f_equal.
    apply filter_filter_comm.
Qed.

(** * Properties of grants and rewards *)

Lemma floorTimesZ_range (u : Q) (m : Z) :
  unitDraw u → 0 < m → 0 ≤ floorTimesZ u m < m.
Proof.
  intros [H0 H1] Hm. unfold floorTimesZ.
  assert (0 < inject_Z m)%Q as Hpos.
  { change 0%Q with (inject_Z 0). rewrite <- Zlt_Qlt. lia. }
  split.
  - change 0 with (Qfloor 0). apply Qfloor_resp_le.
    apply Qmult_le_0_compat; [done|by apply Qlt_le_weak].
  - rewrite Zlt_Qlt.
    apply Qle_lt_trans with (u * inject_Z m)%Q; [apply Qfloor_le|].
    rewrite <- (Qmult_1_l (inject_Z m)) at 2.
    by apply Qmult_lt_r.
Qed.

Lemma gainedOf_app (s : Shape) (g1 g2 : list (option Shape)) :
  gainedOf s (g1 ++ g2) = gainedOf s g1 + gainedOf s g2.
Proof. unfold gainedOf. rewrite List.filter_app, length_app. lia. Qed.

Lemma awardLoop_spec (rnd : nat → Q) :
  (∀ n, unitDraw (rnd n)) →
  ∀ (turns : nat) (next : Inventory) (gained : list (option Shape)) (k : nat),
    let out := awardLoop rnd turns next gained k in
    length out.1.2 = (length gained + turns)%nat ∧
    (Forall is_Some gained → Forall is_Some out.1.2) ∧
    out.2 = (k + turns)%nat ∧
    ∀ s, count out.1.1 s - gainedOf s out.1.2 = count next s - gainedOf s gained.
Proof.
  intros Hrnd. induction turns as [|turns IH]; intros next gained k.
  { simpl. split_and!; [lia|done|lia|done]. }
  cbn [awardLoop].
  destruct (js_get_lt SHAPES (floorTimes (rnd k) (length SHAPES))) as [kind Hkind].
  { apply floorTimes_range; [done|simpl; lia]. }
  rewrite Hkind.
  destruct (IH (<[kind := count next kind + 1]> next) (gained ++ [Some kind]) (S k))
    as (Hlen & Hsome & Hk & Hcount).
  split_and!.
  - rewrite Hlen, length_app. simpl. lia.
  - intros Hg. apply Hsome. apply Forall_app. split; [done|].
    constructor; [by eexists|constructor].
  - lia.
  - intros s. rewrite Hcount, count_insert, gainedOf_app.
    unfold gainedOf at 2. simpl.
    destruct (decide (s = kind)) as [->|Hne].
    + rewrite bool_decide_eq_true_2 by done. simpl. lia.
    + rewrite bool_decide_eq_false_2 by congruence. simpl. lia.
Qed.

Lemma awardRandomTetrisPieces_counts_aux (rnd : nat → Q) (inv : Inventory)
    (nMin nMax : Z) (k : nat) :
  (∀ n, unitDraw (rnd n)) → nMin ≤ nMax →
  (∃ n, nMin ≤ n ≤ nMax ∧
        length (awardRandomTetrisPieces rnd inv nMin nMax k).1.2 = Z.to_nat n) ∧
  Forall is_Some (awardRandomTetrisPieces rnd inv nMin nMax k).1.2 ∧
  (∀ s, count (awardRandomTetrisPieces rnd inv nMin nMax k).1.1 s
        = count inv s + gainedOf s (awardRandomTetrisPieces rnd inv nMin nMax k).1.2).
Proof.
  intros Hrnd Hmm. unfold awardRandomTetrisPieces.
  pose proof (floorTimesZ_range (rnd k) (nMax - nMin + 1) (Hrnd k)) as Hn.
  set (n := floorTimesZ (rnd k) (nMax - nMin + 1) + nMin).
  destruct (awardLoop_spec rnd Hrnd (Z.to_nat n) inv [] (S k))
    as (Hlen & Hsome & _ & Hcount).
  split_and!.
  - exists n. split; [subst n; lia|]. by rewrite Hlen.
  - by apply Hsome.
  - intros s. specialize (Hcount s). unfold gainedOf at 2 in Hcount.
    simpl in Hcount. lia.
Qed.

(** X18. A grant with draws in [0, 1) and [nMin <= nMax] gains between [nMin]
    and [nMax] pieces (none when that number is not positive), each of one of
    the seven kinds, and the new inventory counts, kind by kind, the old count
    plus the number of pieces of that kind gained; no count goes down. *)
Theorem awardRandomTetrisPieces_counts (rnd : nat → Q) (inv : Inventory)
    (nMin nMax : Z) (k : nat) :
  (∀ n, unitDraw (rnd n)) → nMin ≤ nMax →
  let out := awardRandomTetrisPieces rnd inv nMin nMax k in
  (∃ n, nMin ≤ n ≤ nMax ∧ length out.1.2 = Z.to_nat n) ∧
  Forall is_Some out.1.2 ∧
  (∀ s, count out.1.1 s = count inv s + gainedOf s out.1.2) ∧
  (∀ s, count inv s ≤ count out.1.1 s).
Proof.
  intros Hrnd Hmm out.
  destruct (awardRandomTetrisPieces_counts_aux rnd inv nMin nMax k Hrnd Hmm)
    as (Hlen & Hsome & Hcount).
  split_and!; [done..|].
  intros s. subst out. rewrite Hcount. unfold gainedOf. lia.
Qed.

Lemma awardRandomTetrisPieces_counts_witness :
  (∃ n, 1 ≤ n ≤ 3 ∧
        length (awardRandomTetrisPieces (λ _, 0%Q) ∅ 1 3 0).1.2 = Z.to_nat n) ∧
  Forall is_Some (awardRandomTetrisPieces (λ _, 0%Q) ∅ 1 3 0).1.2 ∧
  (∀ s, count (awardRandomTetrisPieces (λ _, 0%Q) ∅ 1 3 0).1.1 s
        = count ∅ s + gainedOf s (awardRandomTetrisPieces (λ _, 0%Q) ∅ 1 3 0).1.2) ∧
  (∀ s, count ∅ s ≤ count (awardRandomTetrisPieces (λ _, 0%Q) ∅ 1 3 0).1.1 s).
Proof.
  apply (awardRandomTetrisPieces_counts (λ _, 0%Q) ∅ 1 3 0);
    [apply zero_draws_unit|lia].
Defined.

(** X19. After a grant of at least one piece to an inventory without negative
    counts, a spawn returns a piece. *)
Theorem spawn_after_award (rnd : nat → Q) (inv : Inventory) (nMin nMax : Z)
    (k : nat) (u : Q) :
  (∀ n, unitDraw (rnd n)) → unitDraw u → 1 ≤ nMin → nMin ≤ nMax →
  (∀ s, 0 ≤ count inv s) →
  ∃ sp p, spawnFromInventory (awardRandomTetrisPieces rnd inv nMin nMax k).1.1 u
          = Ok sp ∧ spawned sp = Some p.
Proof.
  intros Hrnd Hu Hmin Hmm Hnonneg.
  destruct (awardRandomTetrisPieces_counts_aux rnd inv nMin nMax k Hrnd Hmm)
    as (Hlen & Hsome & Hcount).
  set (out := awardRandomTetrisPieces rnd inv nMin nMax k) in *.
  destruct (spawn_cases out.1.1 u Hu) as [[Hzero _]|(kind & m & _ & _ & ->)];
    [exfalso|by eexists _, _].
  destruct Hlen as (n & Hn & Hlen).
  destruct out.1.2 as [|g gained] eqn:Hg; [simpl in Hlen; lia|].
  apply Forall_cons_1 in Hsome as [[kind ->] _].
  specialize (Hzero kind). rewrite Hcount in Hzero. specialize (Hnonneg kind).
  unfold gainedOf in Hzero. simpl in Hzero.
  rewrite bool_decide_eq_true_2 in Hzero by done. simpl in Hzero. lia.
Qed.

Lemma spawn_after_award_witness :
  ∃ sp p, spawnFromInventory (awardRandomTetrisPieces (λ _, 0%Q) ∅ 1 3 0).1.1 0
          = Ok sp ∧ spawned sp = Some p.
Proof.
  apply (spawn_after_award (λ _, 0%Q) ∅ 1 3 0 0);
    [apply zero_draws_unit|apply (zero_draws_unit 0)|lia|lia|by intros []].
Defined.

Lemma ltb_of_leb_ne (a b : string) :
  String.leb a b = true → a ≠ b → String.ltb a b = true.
Proof.
  unfold String.leb, String.ltb. intros Hle Hne.
  destruct (String.compare a b) eqn:Hcmp; [|done..].
  by apply String.compare_eq_iff in Hcmp.
Qed.

Lemma last_default_irrelevant {A} (a b : A) (l : list A) :
  l ≠ [] → List.last l a = List.last l b.
Proof.
  induction l as [|x l IH]; intros Hne; [done|].
  destruct l as [|y l]; [done|].
  change (List.last (y :: l) a = List.last (y :: l) b). by apply IH.
Qed.

Lemma last_cons_default {A} (a d : A) (l : list A) :
  List.last l a = List.last (a :: l) d.
Proof.
  destruct l as [|x l]; [done|].
  change (List.last (x :: l) a = List.last (x :: l) d).
  by apply last_default_irrelevant.
Qed.

Lemma afterFocusDays_spec (days : list string) :
  ∀ r, lastDay r ≠ "" → Forall (λ d, d ≠ "") days →
       StronglySorted notAfter (lastDay r :: days) →
       coins (afterFocusDays r days) = coins r + 10 * Z.of_nat (length days) ∧
       streak (afterFocusDays r days)
       = streak r + Z.of_nat (length (remove_dups (lastDay r :: days))) - 1 ∧
       lastDay (afterFocusDays r days) = List.last days (lastDay r).
Proof.
  induction days as [|d rest IH]; intros r Hlast Hne Hsorted.
  { simpl. split_and!; [lia|lia|done]. }
  apply Forall_cons_1 in Hne as [Hd Hrest].
  apply StronglySorted_inv in Hsorted as [Hsorted Hall].
  pose proof Hall as [Hld _]%Forall_cons_1.
  destruct (IH (awardFocus d r)) as (Hcoins & Hstreak & Hday); [done..|].
  cbn [afterFocusDays foldl]. fold (afterFocusDays (awardFocus d r) rest).
  rewrite Hcoins, Hstreak, Hday. cbn [awardFocus coins streak lastDay].
  split_and!.
  - simpl length. lia.
  - destruct (String.eqb_spec (lastDay r) d) as [Heq|Hneq].
    + rewrite Heq. cbn [remove_dups].
      destruct (decide_rel elem_of d (d :: rest)) as [_|Hnot]; [lia|].
      exfalso. apply Hnot. by left.
    + rewrite (proj2 (String.eqb_neq (lastDay r) "")) by done.
      rewrite (ltb_of_leb_ne _ _ Hld Hneq). simpl andb. cbv iota.
      cbn [remove_dups].
      destruct (decide_rel elem_of (lastDay r) (d :: rest)) as [Hel|_].
      * exfalso. apply elem_of_cons in Hel as [Heq|Hin]; [done|].
        apply StronglySorted_inv in Hsorted as [_ Hdr].
        rewrite Forall_forall in Hdr. specialize (Hdr _ Hin).
        apply Hneq. by apply String.leb_antisym.
      * simpl length. lia.
  - by apply last_cons_default.
Qed.

(** X20. Starting from no rewards, after focus phases completed on a sequence
    of days that never goes back, the coins are 10 per completed phase, the
    streak is the number of distinct days among them (days without a phase in
    between do not reset it), and the last day is the day of the last
    phase. *)
Theorem streak_counts_distinct_days (days : list string) :
  Forall (λ d, d ≠ "") days → StronglySorted notAfter days →
  coins (afterFocusDays (mkRewards 0 0 "") days) = 10 * Z.of_nat (length days) ∧
  streak (afterFocusDays (mkRewards 0 0 "") days)
  = Z.of_nat (length (remove_dups days)) ∧
  lastDay (afterFocusDays (mkRewards 0 0 "") days) = List.last days "".
Proof.
  intros Hne Hsorted. destruct days as [|d rest]; [done|].
  pose proof Hne as [Hd _]%Forall_cons_1.
  cbn [afterFocusDays foldl]. fold (afterFocusDays (awardFocus d (mkRewards 0 0 "")) rest).
  destruct (afterFocusDays_spec rest (awardFocus d (mkRewards 0 0 "")))
    as (Hcoins & Hstreak & Hday).
  - done.
  - by apply Forall_cons_1 in Hne as [_ ?].
  - done.
  - rewrite Hcoins, Hstreak, Hday. cbn [awardFocus coins streak lastDay].
    rewrite (proj2 (String.eqb_neq "" d)) by done.
    simpl negb. simpl andb. cbv iota. split_and!.
    + simpl length. lia.
    + lia.
    + by apply last_cons_default.
Qed.

Lemma streak_counts_distinct_days_witness :
  coins (afterFocusDays (mkRewards 0 0 "")
           ["2025-01-01"; "2025-01-01"; "2025-01-05"]) = 10 * 3 ∧
  streak (afterFocusDays (mkRewards 0 0 "")
            ["2025-01-01"; "2025-01-01"; "2025-01-05"]) = 2 ∧
  lastDay (afterFocusDays (mkRewards 0 0 "")
             ["2025-01-01"; "2025-01-01"; "2025-01-05"]) = "2025-01-05".
Proof.
  apply (streak_counts_distinct_days ["2025-01-01"; "2025-01-01"; "2025-01-05"]).
  - repeat constructor; discriminate.
  - repeat constructor.
Defined.

(** * Further properties of the operations *)

Lemma elem_of_gridCells (rows cols r c : nat) :
  (r, c) ∈ gridCells rows cols ↔ (r < rows)%nat ∧ (c < cols)%nat.
Proof.
  unfold gridCells. rewrite list_elem_of_bind. split.
  - intros (r' & Hin & Hr'). apply list_elem_of_bind in Hin as (c' & Hin & Hc').
    apply list_elem_of_singleton in Hin. simplify_eq.
    apply elem_of_seq in Hr', Hc'. lia.
  - intros [Hr Hc]. exists r. split; [|apply elem_of_seq; lia].
    apply list_elem_of_bind. exists c. split; [by left|apply elem_of_seq; lia].
Qed.

Lemma palette_lookup (n : nat) :
  default "" (palette !! (n `mod` length palette)%nat) ∈ palette.
Proof.
  assert (n `mod` length palette < length palette)%nat as Hlt
    by (apply Nat.mod_upper_bound; discriminate).
  destruct (lookup_lt_is_Some_2 palette _ Hlt) as [colour Hc].
  rewrite Hc. simpl. by eapply list_elem_of_lookup_2.
Qed.

(** X21. What [draw] paints in a reachable state lies on the canvas grid:
    every fill is at a column from 0 to 9 and a row from 0 to 19, and its
    colour is one of the palette or the colour of the active piece's kind. *)
Theorem reachable_draw_on_canvas (c : Play) (fills : list Fill) :
  reachable c → draw (state c) = Ok fills →
  Forall (λ f, 0 ≤ gx f < 10 ∧ 0 ≤ gy f < 20 ∧
               (colour f ∈ palette ∨
                ∃ p, piece (state c) = Some p ∧
                     colour f = SHAPE_COLOR (Piece.shape p))) fills.
Proof.
  intros [[Hlen Hrows] Hon]%reachable_boardInv. unfold draw.
  destruct (board (state c)) as [|row0 b] eqn:Hb; [done|].
  assert (length row0 = 10%nat) as Hw by (by apply Forall_cons_1 in Hrows as [? _]).
  rewrite Hw, Hlen.
  assert (Forall (λ f, 0 ≤ gx f < 10 ∧ 0 ≤ gy f < 20 ∧
                       (colour f ∈ palette ∨
                        ∃ p, piece (state c) = Some p ∧
                             colour f = SHAPE_COLOR (Piece.shape p)))
            (rc ← gridCells 20 10;
             if cellTruthy (row0 :: b) (Z.of_nat rc.1) (Z.of_nat rc.2)
             then [mkFill (default "" (palette !! ((rc.1 * 13 + rc.2 * 7)
                                                   `mod` length palette)%nat))
                          (Z.of_nat rc.2) (Z.of_nat rc.1)]
             else [])) as Hboard.
  { apply Forall_forall. intros f Hf.
    apply list_elem_of_bind in Hf as ([r col] & Hf & [Hr Hc]%elem_of_gridCells).
    simpl in Hf. destruct (cellTruthy _ _ _); [|by apply elem_of_nil in Hf].
    apply list_elem_of_singleton in Hf as ->. simpl.
    split_and!; try lia. left. apply palette_lookup. }
  unfold pieceOnBoard in Hon.
  destruct (piece (state c)) as [p|]; [|by intros [= <-]].
  destruct (shapeAt _ _) as [shape|]; [|done]. intros [= <-].
  apply Forall_app. split; [done|].
  apply Forall_forall. intros f Hf.
  apply list_elem_of_bind in Hf as ([r col] & Hf & Hel).
  simpl in Hf. destruct (occupied shape r col) eqn:Hocc; [|by apply elem_of_nil in Hf].
  apply list_elem_of_singleton in Hf as ->. simpl.
  unfold inside in Hon. rewrite forallb_forall in Hon.
  apply list_elem_of_In, Hon in Hel. simpl in Hel. rewrite Hocc in Hel.
  simpl in Hel. rewrite Hb in Hel.
  apply inBoard_true in Hel as (cells & Hcells & Hx).
  pose proof Hcells as [Hy Hcells']%js_get_Some.
  pose proof (lookup_lt_Some _ _ _ Hcells') as Hylt.
  assert (length cells = 10%nat) as Hcw.
  { rewrite Forall_forall in Hrows. apply Hrows. by eapply list_elem_of_lookup_2. }
  rewrite Hlen in Hylt. split_and!; try lia. right. by exists p.
Qed.

Lemma reachable_draw_on_canvas_witness :
  ∃ fills, draw (state landingPlay) = Ok fills ∧
    fills !! 18%nat = Some (mkFill (SHAPE_COLOR Kind.I) 0 16) ∧
    Forall (λ f, 0 ≤ gx f < 10 ∧ 0 ≤ gy f < 20 ∧
                 (colour f ∈ palette ∨
                  ∃ p, piece (state landingPlay) = Some p ∧
                       colour f = SHAPE_COLOR (Piece.shape p))) fills.
Proof.
  eexists. split; [reflexivity|]. split; [reflexivity|].
  apply (reachable_draw_on_canvas landingPlay);
    [apply landingPlay_reachable|reflexivity].
Defined.

(** X22. A move is undone by the opposite move: when the piece stands on a
    free position and the move by [dx] is accepted, moving by [-dx] afterwards
    gives back the state one started from. *)
Theorem move_back_restores (s : GameState) (p : Piece.t) (shape : Matrix) (dx : Z) :
  piece s = Some p → shapeAt (Piece.shape p) (Piece.r p) = Some shape →
  canPlace (board s) shape (Piece.x p) (Piece.y p) = true →
  canPlace (board s) shape (Piece.x p + dx) (Piece.y p) = true →
  ∃ s1, move dx s = Ok s1 ∧
        piece s1 = Some (Piece.mk (Piece.shape p) (Piece.x p + dx) (Piece.y p)
                                  (Piece.r p)) ∧
        move (- dx) s1 = Ok s.
Proof.
  intros Hp Hshape Hhere Hthere. unfold move at 1. rewrite Hp, Hshape, Hthere.
  eexists. split; [done|]. split; [done|].
  unfold move, withPiece. simpl. rewrite Hshape.
  replace (Piece.x p + dx + - dx) with (Piece.x p) by lia.
  rewrite Hhere. destruct s as [b pc o sc], p as [k x y r]. simpl in *.
  by rewrite Hp.
Qed.

Lemma move_back_restores_witness :
  ∃ s1, move 1 barAtLeftWall = Ok s1 ∧
        piece s1 = Some (Piece.mk Kind.I (0 + 1) 5 0) ∧
        move (- 1) s1 = Ok barAtLeftWall.
Proof.
  apply (move_back_restores barAtLeftWall (Piece.mk Kind.I 0 5 0) [[1;1;1;1]] 1);
    reflexivity.
Defined.

Lemma withPiece_same (s : GameState) (p : Piece.t) :
  piece s = Some p →
  withPiece s (Some (Piece.mk (Piece.shape p) (Piece.x p) (Piece.y p) (Piece.r p)))
  = s.
Proof. destruct s, p. simpl. by intros ->. Qed.

(** X23. A hard drop is the same as ticking until the piece has landed: with
    the flag unset, when its loop leaves at row [y'], [hardDrop] gives what
    [y' - y + 1] ticks in a row give, the last of them being the landing (or
    the error of that tick). *)
Theorem hardDrop_is_repeated_step (fuel : nat) (s : GameState) (p : Piece.t)
    (shape : Matrix) (y' : Z) :
  piece s = Some p → over s = false →
  shapeAt (Piece.shape p) (Piece.r p) = Some shape →
  dropLoop fuel (board s) shape (Piece.x p) (Piece.y p) = Some y' →
  hardDrop fuel s = Some (stepTimes (S (Z.to_nat (y' - Piece.y p))) s).
Proof.
  revert s p shape y'.
  induction fuel as [|fuel IH]; intros s p shape y' Hp Hover Hshape; [done|].
  cbn [dropLoop].
  destruct (canPlace (board s) shape (Piece.x p) (Piece.y p + 1)) eqn:Hcan.
  - intros Hloop.
    pose proof (dropLoop_lowest _ _ _ _ _ _ Hloop) as (Hle & _).
    set (s1 := withPiece s (Some (Piece.mk (Piece.shape p) (Piece.x p)
                                           (Piece.y p + 1) (Piece.r p)))).
    assert (step s = Ok s1) as Hstep.
    { unfold step. by rewrite Hover, Hp, Hshape, Hcan. }
    specialize (IH s1 (Piece.mk (Piece.shape p) (Piece.x p) (Piece.y p + 1)
                                (Piece.r p)) shape y' eq_refl Hover Hshape Hloop).
    simpl in IH.
    replace (S (Z.to_nat (y' - Piece.y p)))
      with (S (S (Z.to_nat (y' - (Piece.y p + 1))))) by (clear -Hle; lia).
    cbn [stepTimes]. rewrite Hstep. cbn [mbind result_bind].
    change (stepTimes (S (Z.to_nat (y' - (Piece.y p + 1)))) s1)
      with (step s1 ≫= stepTimes (Z.to_nat (y' - (Piece.y p + 1)))).
    cbn [stepTimes] in IH. rewrite <- IH.
    unfold hardDrop, drop. rewrite Hp, Hshape. cbn [dropLoop]. rewrite Hcan, Hloop.
    simpl. by rewrite Hshape, Hloop.
  - intros [= <-]. rewrite Z.sub_diag. simpl.
    unfold hardDrop, drop. rewrite Hp, Hshape. cbn [dropLoop]. rewrite Hcan.
    simpl. rewrite withPiece_same by done. by destruct (step s).
Qed.

Lemma hardDrop_is_repeated_step_witness :
  hardDrop 21 barAtLeftWall
  = Some (stepTimes (S (Z.to_nat (19 - 5))) barAtLeftWall).
Proof.
  apply (hardDrop_is_repeated_step 21 barAtLeftWall (Piece.mk Kind.I 0 5 0)
           [[1;1;1;1]] 19); reflexivity.
Defined.

(** X24. [ensurePiece] spawns only when no piece is active.  With a piece
    active it changes nothing; without one, on an inventory without negative
    counts, it either finds every count zero and only stops the loop, or sets
    a piece of a kind that had a positive count, takes exactly one piece of
    that kind from the inventory, records the kind as last consumed, and
    leaves board, score, flag and running as they are. *)
Theorem ensurePiece_consumes_one (u : Q) (c : Play) :
  unitDraw u → (∀ s, 0 ≤ count (inventory c) s) →
  (∀ p, piece (state c) = Some p → ensurePiece u c = Ok c) ∧
  (piece (state c) = None →
   ((∀ s, count (inventory c) s = 0) ∧
    ensurePiece u c
    = Ok (mkPlay (state c) (inventory c) false (lastConsumed c) (prefill c))) ∨
   ∃ c' p,
     ensurePiece u c = Ok c' ∧
     state c' = withPiece (state c) (Some p) ∧
     0 < count (inventory c) (Piece.shape p) ∧
     lastConsumed c' = Some (Piece.shape p) ∧
     running c' = running c ∧ prefill c' = prefill c ∧
     ∀ s, count (inventory c') s
          = if decide (s = Piece.shape p) then count (inventory c) s - 1
            else count (inventory c) s).
Proof.
  intros Hu Hnonneg. split.
  - intros p Hp. unfold ensurePiece. by rewrite Hp.
  - intros Hp. unfold ensurePiece. rewrite Hp.
    destruct (spawn_cases (inventory c) u Hu) as [[Hzero ->]|(k & m & Hk & _ & ->)].
    + left. split; [|done]. intros s. specialize (Hzero s).
      specialize (Hnonneg s). lia.
    + right. simpl. eexists _, _. split; [done|]. simpl.
      split_and!; [done..|]. intros s. rewrite count_insert. simpl.
      destruct (decide (s = k)) as [->|]; [lia|done].
Qed.

Lemma ensurePiece_consumes_one_witness :
  ∃ c' p,
    ensurePiece 0 stockedPlay = Ok c' ∧
    state c' = withPiece (state stockedPlay) (Some p) ∧
    0 < count (inventory stockedPlay) (Piece.shape p) ∧
    lastConsumed c' = Some (Piece.shape p) ∧
    running c' = running stockedPlay ∧ prefill c' = prefill stockedPlay ∧
    ∀ s, count (inventory c') s
         = if decide (s = Piece.shape p) then count (inventory stockedPlay) s - 1
           else count (inventory stockedPlay) s.
Proof.
  destruct (ensurePiece_consumes_one 0 stockedPlay) as [_ Hspawn].
  - apply (zero_draws_unit 0).
  - intros s. destruct s; vm_compute; discriminate.
  - destruct (Hspawn eq_refl) as [[Hzero _]|Hpiece]; [|exact Hpiece].
    specialize (Hzero Kind.I). vm_compute in Hzero. discriminate Hzero.
Defined.

(** ** What a merge leaves behind *)

Lemma cellTruthy_readCell (b : Board) (i j : Z) :
  cellTruthy b i j = match readCell b i j with Some c => truthy c | None => false end.
Proof. done. Qed.

(** X25. Merging a piece whose cells lie on the board never frees a cell, and
    it blocks its own place: every cell occupied before is occupied after,
    and the same shape can no longer be placed at the same position. *)
Theorem merge_blocks_its_place (b : Board) (k : Shape) (r : Z) (shape : Matrix)
    (x y : Z) :
  shapeAt k r = Some shape → inside b shape x y = true →
  ∃ m, merge b shape x y = Ok m ∧
       canPlace m shape x y = false ∧
       ∀ i j, cellTruthy b i j = true → cellTruthy m i j = true.
Proof.
  intros Hshape Hin. pose proof (PIECE_MAP_sound _ _ _ Hshape) as Hsound.
  destruct (merge_inside b shape x y Hsound Hin) as (m & Hm & _ & Hcells).
  exists m. split; [done|]. split.
  - destruct (soundMatrix_occupied shape Hsound) as (r0 & c0 & Hel & Hocc).
    unfold canPlace. apply (forallb_false _ _ (r0, c0)); [done|]. simpl.
    rewrite Hocc. simpl. apply negb_false_iff. unfold blocked.
    repeat (apply orb_true_iff; right).
    rewrite cellTruthy_readCell.
    destruct (Hcells (y + Z.of_nat r0) (x + Z.of_nat c0)) as [[_ ->]|[Hnot _]];
      [done|].
    exfalso. apply Hnot. by exists r0, c0.
  - intros i j. rewrite !cellTruthy_readCell.
    destruct (Hcells i j) as [[_ ->]|[_ ->]]; done.
Qed.

Lemma merge_blocks_its_place_witness :
  ∃ m, merge (createBoard 4 4) [[1;1];[1;1]] 1 2 = Ok m ∧
       canPlace m [[1;1];[1;1]] 1 2 = false ∧
       ∀ i j, cellTruthy (createBoard 4 4) i j = true → cellTruthy m i j = true.
Proof.
  apply (merge_blocks_its_place (createBoard 4 4) Kind.O 0 [[1;1];[1;1]] 1 2);
    reflexivity.
Defined.

(** ** Lines per landing *)

Lemma filter_length_in_range {A} (P : A → bool) (h : nat) (l : list A) :
  ∀ lo : Z,
    (∀ (i : nat) a, l !! i = Some a → P a = true →
                    lo ≤ Z.of_nat i < lo + Z.of_nat h) →
    (length (List.filter P l) ≤ Z.to_nat (lo + Z.of_nat h - Z.max lo 0))%nat.
Proof.
  induction l as [|a l IH]; intros lo Hrange; [simpl; lia|].
  assert (length (List.filter P l)
          ≤ Z.to_nat (lo - 1 + Z.of_nat h - Z.max (lo - 1) 0))%nat as Hl.
  { apply IH. intros i a' Hi Ha'. specialize (Hrange (S i) a' Hi Ha'). lia. }
  simpl. destruct (P a) eqn:Ha; [|lia].
  specialize (Hrange 0%nat a eq_refl Ha). simpl. lia.
Qed.

Lemma mergedAt_rows_outside (b m : Board) (shape : Matrix) (x y : Z) (i : nat) :
  mergedAt b shape x y m →
  ¬ (y ≤ Z.of_nat i < y + Z.of_nat (length shape)) →
  m !! i = b !! i.
Proof.
  intros [Hd Hcells] Hout.
  assert (length <$> m !! i = length <$> b !! i) as Hlen.
  { unfold dims in Hd.
    by rewrite <- (list_lookup_fmap length m), <- (list_lookup_fmap length b), Hd. }
  destruct (m !! i) as [rm|] eqn:Hm, (b !! i) as [rb|] eqn:Hb; simplify_eq/=;
    [|done].
  f_equal. apply list_eq. intros j.
  destruct (Hcells (Z.of_nat i) (Z.of_nat j)) as [[(r & c & Hocc & Hi & _) _]|[_ Hsame]].
  - exfalso. apply Hout.
    apply occupied_true in Hocc as (v & Hv & _).
    destruct (shape !! r) eqn:Hr; [|done].
    apply lookup_lt_Some in Hr. lia.
  - rewrite !readCell_of_nat, Hm, Hb in Hsame. exact Hsame.
Qed.

Lemma PIECE_MAP_height (k : Shape) (r : Z) (shape : Matrix) :
  shapeAt k r = Some shape → (length shape ≤ 4)%nat.
Proof.
  intros [_ H]%js_get_Some.
  destruct k; destruct (Z.to_nat r) as [|[|[|[|n]]]];
    cbn in H; try discriminate H; injection H as <-; simpl; lia.
Qed.

Lemma landing_lines (b m : Board) (shape : Matrix) (x y : Z) :
  mergedAt b shape x y m →
  Forall (λ cells, existsb isZero cells = true) b →
  ((clearLines m).2 ≤ length shape)%nat.
Proof.
  intros Hm Hzero. rewrite clearLines_eq. simpl.
  pose proof (filter_length_split (existsb isZero) m) as Hsplit.
  pose proof (filter_length_in_range (λ a, negb (existsb isZero a))
                (length shape) m y) as Hrange.
  assert (length (List.filter (λ a, negb (existsb isZero a)) m)
          ≤ Z.to_nat (y + Z.of_nat (length shape) - Z.max y 0))%nat as Hle.
  { apply Hrange. intros i a Hi Ha.
    destruct (decide (y ≤ Z.of_nat i < y + Z.of_nat (length shape))) as [|Hout];
      [done|exfalso].
    rewrite (mergedAt_rows_outside b m shape x y i Hm Hout) in Hi.
    rewrite Forall_lookup in Hzero. rewrite (Hzero i a Hi) in Ha. done. }
  lia.
Qed.

Lemma step_rows_have_zero (s s' : GameState) :
  grid 20 10 (board s) → pieceOnBoard s = true →
  Forall (λ cells, existsb isZero cells = true) (board s) →
  step s = Ok s' →
  Forall (λ cells, existsb isZero cells = true) (board s') ∧
  score s' ≤ score s + 400.
Proof.
  intros Hgrid Hon Hzero. unfold step.
  destruct (over s); [intros [= <-]; split; [done|lia]|].
  unfold pieceOnBoard in Hon.
  destruct (piece s) as [p|]; [|intros [= <-]; split; [done|lia]].
  destruct (shapeAt _ _) as [shape|] eqn:Hshape; [|done].
  destruct (canPlace _ _ _ _); [intros [= <-]; split; [done|simpl; lia]|].
  destruct (merge_inside (board s) shape (Piece.x p) (Piece.y p))
    as (m & -> & Hm); [by eapply PIECE_MAP_sound|done|].
  simpl. intros [= <-]. simpl. split.
  - apply (clearLines_rows_have_zero m).
    assert (grid 20 10 m) as [Hlen Hrows].
    { apply grid_dims. destruct Hm as [-> _]. by apply grid_dims. }
    destruct m as [|cells m]; [done|]. simpl.
    apply Forall_cons_1 in Hrows as [-> _]. lia.
  - pose proof (landing_lines _ _ _ _ _ Hm Hzero) as Hlines.
    pose proof (PIECE_MAP_height _ _ _ Hshape) as Hheight.
    change (unshiftRows _ _ _, _).2 with (clearLines m).2 in Hlines.
    assert (Z.of_nat (length m - length (List.filter (existsb isZero) m)) ≤ 4).
    { rewrite clearLines_eq in Hlines. simpl in Hlines. lia. }
    lia.
Qed.

Lemma reachable_rows_have_zero (c : Play) :
  reachable c →
  Forall (λ cells, existsb isZero cells = true) (board (state c)).
Proof.
  intros Hreach.
  induction Hreach as [rnd inv bk Hrnd Hg|c c' u Hc IH _ He|c s' Hc IH Hs
                      |c dx s' _ IH Hs|c s' _ IH Hs|c fuel s' Hc IH Hs
                      |c c' rnd _ IH Hrnd Hr|c on _ IH|c _ IH|c _ IH|c inv _ IH];
    simpl; try done.
  - destruct (generateGarbage_grid rnd 20 10 2 0 Hrnd) as (bk' & Hbk & Hinv);
      [lia|lia|].
    rewrite Hg in Hbk. injection Hbk as <-.
    apply (garbageInv_rows_have_zero 20 10 (0 + 2)); [lia|lia|done].
  - by rewrite (ensurePiece_board _ _ _ He).
  - destruct (reachable_boardInv c Hc) as [Hgrid Hon].
    by destruct (step_rows_have_zero _ _ Hgrid Hon IH Hs).
  - by rewrite (move_board _ _ _ Hs).
  - by rewrite (rotate_board _ _ Hs).
  - destruct (reachable_boardInv c Hc) as [Hgrid Hon].
    unfold hardDrop in Hs.
    destruct (drop fuel (state c)) as [[s1|]|] eqn:Hdrop; simpl in Hs; [|done..].
    injection Hs as Hs.
    destruct (drop_boardInv _ _ _ Hgrid Hon Hdrop) as [Hgrid1 Hon1].
    rewrite <- (drop_board _ _ _ Hdrop) in IH.
    by destruct (step_rows_have_zero _ _ Hgrid1 Hon1 IH Hs).
  - unfold reset in Hr.
    destruct (generateGarbage _ _ _ _ _) as [bk|] eqn:Hg; simpl in Hr; [|done].
    injection Hr as <-. simpl.
    destruct (generateGarbage_grid rnd 20 10
                (Z.to_nat (Z.max 0 (Z.min 10 (prefill c)))) 0 Hrnd)
      as (bk' & Hbk & Hinv); [lia|lia|].
    rewrite Hg in Hbk. injection Hbk as <-.
    eapply (garbageInv_rows_have_zero 20 10); [lia| |done]. lia.
Qed.

(** X26. Between operations no row of the board is full: every row of the
    board of a reachable state holds a 0.  So a tick clears only rows that the
    landing piece has just completed, at most four, and adds at most 400 to the
    score. *)
Theorem reachable_no_full_row (c : Play) :
  reachable c →
  Forall (λ cells, existsb isZero cells = true) (board (state c)) ∧
  ∀ s', step (state c) = Ok s' →
        score (state c) ≤ score s' ≤ score (state c) + 400.
Proof.
  intros Hreach. split; [by apply reachable_rows_have_zero|].
  intros s' Hs. destruct (reachable_boardInv c Hreach) as [Hgrid Hon].
  destruct (step_rows_have_zero _ _ Hgrid Hon (reachable_rows_have_zero c Hreach) Hs)
    as [_ Hle].
  destruct (step_score _ _ Hs) as [lines Hlines]. lia.
Qed.

Lemma reachable_no_full_row_witness :
  Forall (λ cells, existsb isZero cells = true) (board (state landingPlay)) ∧
  step (state landingPlay) = Ok landedState ∧
  score (state landingPlay) ≤ score landedState ≤ score (state landingPlay) + 400.
Proof.
  destruct (reachable_no_full_row landingPlay landingPlay_reachable)
    as [Hrows Htick].
  assert (step (state landingPlay) = Ok landedState) as Hland by reflexivity.
  split_and!; [exact Hrows|exact Hland|apply (Htick landedState Hland)..].
Defined.

(** * One tick of a reachable state *)

(** C1. In every state the play component can reach, with an active falling
    piece, the stored rotation index selects a rotation state [shape], and one
    tick of [step] does one of two things.  When the shape can be placed at
    [(x, y + 1)], it moves the piece exactly one row down and leaves board,
    flag, score and the other fields of the piece as they are.  When it
    cannot, it sets exactly the cells under the piece at [(x, y)] to occupied,
    runs [clearLines] on that board, adds 100 per cleared line to the score
    and leaves the state without active piece. *)
Theorem reachable_step_falls_or_lands (c : Play) (p : Piece.t) :
  reachable c → piece (state c) = Some p →
  ∃ shape,
    shapeAt (Piece.shape p) (Piece.r p) = Some shape ∧
    (canPlace (board (state c)) shape (Piece.x p) (Piece.y p + 1) = true →
     step (state c)
     = Ok (mkState (board (state c))
             (Some (Piece.mk (Piece.shape p) (Piece.x p) (Piece.y p + 1)
                             (Piece.r p)))
             (over (state c)) (score (state c)))) ∧
    (canPlace (board (state c)) shape (Piece.x p) (Piece.y p + 1) = false →
     ∃ merged,
       mergedAt (board (state c)) shape (Piece.x p) (Piece.y p) merged ∧
       step (state c)
       = Ok (mkState (clearLines merged).1 None (over (state c))
               (score (state c) + Z.of_nat (clearLines merged).2 * 100))).
Proof.
  intros Hreach Hp.
  pose proof (reachable_over c Hreach) as Hover.
  destruct (reachable_boardInv c Hreach) as [_ Hon].
  unfold pieceOnBoard in Hon. rewrite Hp in Hon.
  destruct (shapeAt (Piece.shape p) (Piece.r p)) as [shape|] eqn:Hshape; [|done].
  exists shape. split; [done|].
  unfold step, withPiece. rewrite Hp, Hover, Hshape. split.
  - intros ->. reflexivity.
  - intros ->.
    destruct (merge_inside (board (state c)) shape (Piece.x p) (Piece.y p))
      as (m & -> & Hm); [by eapply PIECE_MAP_sound|done|].
    exists m. split; [done|]. simpl. by destruct (clearLines m).
Qed.

Lemma reachable_step_falls_or_lands_witness :
  step (state spawnedPlay)
  = Ok (mkState garbageOfZeroDraws (Some (Piece.mk Kind.I 3 (0 + 1) 0)) false 0) ∧
  ∃ merged,
    mergedAt garbageOfZeroDraws [[1];[1];[1];[1]] 0 16 merged ∧
    step (state landingPlay)
    = Ok (mkState (clearLines merged).1 None false
            (0 + Z.of_nat (clearLines merged).2 * 100)) ∧
    step (state landingPlay) = Ok landedState.
Proof.
  split.
  - destruct (reachable_step_falls_or_lands spawnedPlay (Piece.mk Kind.I 3 0 0)
                spawnedPlay_reachable eq_refl) as (shape & Hshape & Hfall & _).
    injection Hshape as <-. apply Hfall. reflexivity.
  - destruct (reachable_step_falls_or_lands landingPlay (Piece.mk Kind.I 0 16 1)
                landingPlay_reachable eq_refl) as (shape & Hshape & _ & Hland).
    injection Hshape as <-. destruct (Hland eq_refl) as (merged & Hm & Hstep).
    exists merged. split_and!; [done..|]. reflexivity.
Defined.
